(** * Transaction relay engine: route handlers, caches, indexer registry
      and the transaction orchestration core.

    The development embeds the TypeScript sources shallowly:
    - handlers are functions in a state-and-exception monad over the
      stored state they touch;
    - the transaction table is a list of records in creation order;
    - JS objects used as maps ([INDEXER_REGISTRY], [smartWalletsCache])
      are [gmap]s. *)

From stdpp Require Import gmap strings list fin_maps pretty.
From Stdlib Require Import ZArith Lia Ascii.

Open Scope string_scope.
Open Scope Z_scope.
Open Scope list_scope.

(** ** A state-and-exception monad

    [await f(x)] that resolves becomes [Ok]; a [throw] (or a rejected
    promise) becomes [Throw] and skips the rest of the handler, but the
    state written so far stays. *)
Module Eff.

Inductive result (E A : Type) : Type :=
| Ok (a : A)
| Throw (e : E).
Arguments Ok {E A} a.
Arguments Throw {E A} e.

Definition M (S E A : Type) : Type := S -> S * result E A.

Definition ret {S E A} (a : A) : M S E A := fun s => (s, Ok a).

Definition throw {S E A} (e : E) : M S E A := fun s => (s, Throw e).

Definition bind {S E A B} (m : M S E A) (k : A -> M S E B) : M S E B :=
  fun s =>
    match m s with
    | (s', Ok a) => k a s'
    | (s', Throw e) => (s', Throw e)
    end.

Definition gets {S E A} (f : S -> A) : M S E A := fun s => (s, Ok (f s)).

Definition modify {S E} (f : S -> S) : M S E unit := fun s => (f s, Ok tt).

(** [for (const x of xs) { body(x) }] collecting what each iteration
    pushes. *)
Fixpoint forOf {S E A B} (body : A -> M S E B) (xs : list A) : M S E (list B) :=
  match xs with
  | [] => ret []
  | x :: rest =>
      bind (body x) (fun b => bind (forOf body rest) (fun bs => ret (b :: bs)))
  end.

(** A computation that leaves the state as it found it. *)
Definition readsOnly {S E A} (m : M S E A) : Prop := forall s, (m s).1 = s.

End Eff.

Import Eff.

#[global] Instance M_ret {S E} : MRet (Eff.M S E) := fun _ => Eff.ret.
#[global] Instance M_bind {S E} : MBind (Eff.M S E) :=
  fun _ _ k m => Eff.bind m k.

(** ** HTTP replies and errors ([http-status-codes], [createCustomError]) *)
Module StatusCodes.
Definition OK : Z := 200.
Definition BAD_REQUEST : Z := 400.
End StatusCodes.

Record CustomError : Type := createCustomError {
  message : string;
  statusCode : Z;
  code : string;
}.

(** [reply.status(c).send(body)] *)
Record Reply (A : Type) : Type := send {
  reply_status : Z;
  reply_body : A;
}.
Arguments send {A} _ _.
Arguments reply_status {A} _.
Arguments reply_body {A} _.

(** A client error is one answered with a 4xx status. *)
Definition isClientError (e : CustomError) : bool :=
  (400 <=? statusCode e) && (statusCode e <? 500).

(** JS truthiness of an optional string: [undefined] and the empty
    string are falsy. *)
Definition truthy (o : option string) : bool :=
  match o with
  | Some s => negb (String.eqb s "")
  | None => false
  end.

(** ** Transaction records *)

Inductive Status : Type :=
| queued
| submitted
| mined
| errored
| cancelled.

#[global] Instance Status_eq_dec : EqDecision Status.
Proof. solve_decision. Defined.

Record TransactionRequest : Type := mkTx {
  queueId : string;
  chainId : Z;
  from : string;
  to : option string;
  data : string;
  value : Z;
  idempotencyKey : option string;
  overrides : option Z;
  nonce : option Z;
  status : Status;
  transactionHash : option string;
  fee : Z;
  submittedAt : option Z;
  minedAt : option Z;
  blockNumber : option Z;
  errorMessage : option string;
  retryCount : nat;
}.

(** The transaction table: records in creation order. *)
Abbreviation Store := (list TransactionRequest).

(** ** shared/db/transactions/db *)
Module TransactionDB.

(** The record stored under [id], if any. *)
Definition lookup (id : string) (st : Store) : option TransactionRequest :=
  List.find (fun r => String.eqb (queueId r) id) st.

(** Modelled from the spec: [TransactionDB.get], which is not among the
    sources ("get(id) -> record | NotFound"); a query, it resolves to
    the record or to [null] and writes nothing. *)
Definition get {E} (id : string) : M Store E (option TransactionRequest) :=
  gets (lookup id).

End TransactionDB.

(** A network as the chain SDK describes it; only [chain_id] identifies
    it, the other fields vary between descriptions of one network. *)
Record Chain : Type := mkChain {
  chain_id : Z;
  chain_rpc : string;
}.

(** Lifting a collaborator's outcome into a handler. *)
Definition await {S E A} (r : result E A) : M S E A := fun s => (s, r).

(** ** GET /transaction/status/:queueId (routes/transaction/status.ts) *)
Module StatusRoute.

(** schemas/transaction: the client view of a record. *)
Class TransactionSchema : Type := {
  TransactionView : Type;
  toTransactionSchema : TransactionRequest -> TransactionView;
}.

Section handlers.
Context `{TransactionSchema}.

Definition getTransactionStatusRoute (queueId : string)
  : M Store CustomError (Reply TransactionView) :=
  transaction ← TransactionDB.get queueId;
  match transaction with
  | None =>
      throw (createCustomError "Transaction not found."
               StatusCodes.BAD_REQUEST "TRANSACTION_NOT_FOUND")
  | Some transaction =>
      mret (send StatusCodes.OK (toTransactionSchema transaction))
  end.


End handlers.
End StatusRoute.

(** ** GET /transaction/logs (routes/transaction/blockchain/get-logs.ts) *)
Module GetLogs.

Record Log : Type := mkLog {
  address : string;
  topics : list string;
  log_data : string;
  logIndex : Z;
}.

Record TransactionReceipt : Type := mkReceipt {
  receipt_to : option string;
  logs : list Log;
}.

Record AbiItem : Type := mkAbiItem {
  type : string;
  signature : string;
}.

(** The chain SDK and the helpers the handler imports. A [Throw] is a
    rejected promise. *)
Class Sdk : Type := {
  getChainIdFromChain : string -> result CustomError Z;
  getChain : Z -> result CustomError Chain;
  eth_getTransactionReceipt : Chain -> string -> result CustomError TransactionReceipt;
  resolveContractAbi : Chain -> string -> result CustomError (list AbiItem);
  PreparedEvent : Type;
  prepareEvent : AbiItem -> PreparedEvent;
  ParsedLog : Type;
  parseEventLogs : list PreparedEvent -> list Log -> list ParsedLog;
  LogJson : Type;
  serializeLogs : list Log -> list LogJson;
  serializeParsedLogs : list ParsedLog -> list LogJson;
}.

Record Querystring : Type := mkQuery {
  chain : string;
  q_queueId : option string;
  q_transactionHash : option string;
  parseLogs : option bool;
}.

(** [new Set<string>()] filled with [add]: insertion order, no repeats. *)
Definition Set_add (x : string) (xs : list string) : list string :=
  if bool_decide (x ∈ xs) then xs else xs ++ [x].

Section handler.
Context `{Sdk}.

(** [Promise.all(addresses.map(async ...))]: the first rejection
    rejects the whole. *)
Fixpoint eventSignaturePromises (chain : Chain) (addresses : list string)
  : result CustomError (list (list AbiItem)) :=
  match addresses with
  | [] => Ok []
  | address :: rest =>
      match resolveContractAbi chain address with
      | Throw e => Throw e
      | Ok abi =>
          match eventSignaturePromises chain rest with
          | Throw e => Throw e
          | Ok sigs => Ok (filter (fun item => type item = "event") abi :: sigs)
          end
      end
  end.

Definition getTransactionLogs (query : Querystring)
  : M Store CustomError (Reply (list LogJson)) :=
  let parseLogs := default true (parseLogs query) in
  chainId ← await (getChainIdFromChain (chain query));
  chain ← await (getChain chainId);
  if negb (truthy (q_queueId query)) && negb (truthy (q_transactionHash query)) then
    throw (createCustomError
             "Either a queue ID or transaction hash must be provided."
             StatusCodes.BAD_REQUEST "MISSING_TRANSACTION_ID")
  else
    (* Get the transaction hash from the provided input. *)
    hash ←
      (if truthy (q_queueId query) then
         transaction ← TransactionDB.get (default "" (q_queueId query));
         match transaction with
         | Some transaction =>
             if decide (status transaction = mined)
             then mret (transactionHash transaction)
             else mret None
         | None => mret None
         end
       else if truthy (q_transactionHash query) then
         mret (q_transactionHash query)
       else mret None);
    if negb (truthy hash) then
      throw (createCustomError
               "Could not find transaction, or transaction is not mined."
               StatusCodes.BAD_REQUEST "TRANSACTION_NOT_MINED")
    else
      (* Try to get the receipt. *)
      match eth_getTransactionReceipt chain (default "" hash) with
      | Throw _ =>
          throw (createCustomError
                   "Unable to get transaction receipt. The transaction may not have been mined yet."
                   StatusCodes.BAD_REQUEST "TRANSACTION_NOT_MINED")
      | Ok transactionReceipt =>
          if negb parseLogs then
            mret (send StatusCodes.OK (serializeLogs (logs transactionReceipt)))
          else
            match receipt_to transactionReceipt with
            | None =>
                throw (createCustomError
                         "Transaction logs are only supported for contract calls."
                         StatusCodes.BAD_REQUEST "TRANSACTION_LOGS_UNAVAILABLE")
            | Some receiptTo =>
                if negb (truthy (Some receiptTo)) then
                  throw (createCustomError
                           "Transaction logs are only supported for contract calls."
                           StatusCodes.BAD_REQUEST "TRANSACTION_LOGS_UNAVAILABLE")
                else
                  let contracts :=
                    foldl (fun acc log =>
                             if truthy (Some (address log))
                             then Set_add (address log) acc else acc)
                          (Set_add receiptTo []) (logs transactionReceipt) in
                  sigs ← await (eventSignaturePromises chain contracts);
                  let combinedEventSignatures := concat sigs in
                  if bool_decide (length combinedEventSignatures = 0%nat) then
                    throw (createCustomError
                             "No events found in contract or could not resolve contract ABI"
                             StatusCodes.BAD_REQUEST "NO_EVENTS_FOUND")
                  else
                    let preparedEvents := prepareEvent <$> combinedEventSignatures in
                    let parsedLogs :=
                      parseEventLogs preparedEvents (logs transactionReceipt) in
                    mret (send StatusCodes.OK (serializeParsedLogs parsedLogs))
            end
      end.

End handler.

(** The error of a request whose transaction is missing or not mined. *)
Definition notMined : CustomError :=
  createCustomError "Could not find transaction, or transaction is not mined."
    StatusCodes.BAD_REQUEST "TRANSACTION_NOT_MINED".

End GetLogs.

(** ** utils/cache/getSmartWalletV5.ts *)
Module SmartWallet.

(** The wallet SDK: [Account] is a connected account; a [Throw] is a
    rejected promise. *)
Class WalletSdk : Type := {
  Account : Type;
  readFactory : Chain -> string -> result CustomError string;
  getAccount : Z -> string -> result CustomError Account;
  smartWalletConnect : Chain -> string -> Account -> result CustomError Account;
}.

Record SmartWalletParams : Type := mkParams {
  chain : Chain;
  accountAddress : string;
  sw_from : string;
  accountFactoryAddress : option string;
}.

(** [`${chain.id}-${accountAddress}-${from}`] *)
Definition cacheKey (p : SmartWalletParams) : string :=
  pretty (chain_id (chain p)) +:+ "-" +:+ accountAddress p +:+ "-" +:+ sw_from p.

Section cache.
Context `{WalletSdk}.

(** [smartWalletsCache : Map<string, Account>] is the state. *)
Definition getSmartWalletV5 (p : SmartWalletParams)
  : M (gmap string Account) CustomError Account :=
  cachedWallet ← gets (fun smartWalletsCache => smartWalletsCache !! cacheKey p);
  match cachedWallet with
  | Some cachedWallet => mret cachedWallet
  | None =>
      (* Resolve Factory Contract Address from Smart-Account Contract *)
      factoryAddress ←
        (if negb (truthy (accountFactoryAddress p))
         then await (readFactory (chain p) (accountAddress p))
         else mret (default "" (accountFactoryAddress p)));
      (* EOA Account *)
      account ← await (getAccount (chain_id (chain p)) (sw_from p));
      (* Smart Account using the resolved Factory Contract Address *)
      smartAccount ← await (smartWalletConnect (chain p) factoryAddress account);
      modify (insert (cacheKey p) smartAccount);;
      mret smartAccount
  end.

End cache.
End SmartWallet.

(** ** worker/tasks/manage-chain-indexers.ts *)
Module Indexers.

(** A scheduled indexing task; [task_serial] tells two tasks of one
    chain apart. *)
Record ScheduledTask : Type := mkTask {
  task_chainId : Z;
  task_serial : nat;
}.

#[global] Instance ScheduledTask_eq_dec : EqDecision ScheduledTask.
Proof. solve_decision. Defined.

(** [INDEXER_REGISTRY : Record<number, ScheduledTask>] together with the
    tasks that run: started and not stopped, whether or not the registry
    still points at them. *)
Record State : Type := mkState {
  INDEXER_REGISTRY : gmap Z ScheduledTask;
  running : list ScheduledTask;
  nextSerial : nat;
}.

Definition empty : State := mkState ∅ [] 0.

(** Modelled from the spec: the second half of [addChainIndexer] of
    worker/indexers/chain-indexer-registry ("for every chain id in the
    desired set without a running IndexerHandle, start one"): a new task
    starts and its handle is recorded under the chain id. *)
Definition startChainIndexer (chainId : Z) (s : State) : State :=
  let task := mkTask chainId (nextSerial s) in
  mkState (<[chainId := task]> (INDEXER_REGISTRY s))
          (running s ++ [task])
          (S (nextSerial s)).

(** Modelled from the spec: [addChainIndexer] run without interruption.
    Its first half resolves the initial cursor ("current chain head, or
    a persisted last-processed block"), which is network or Store I/O
    and so a suspension point; it changes no registry state. *)
Definition addChainIndexer (chainId : Z) (s : State) : State :=
  startChainIndexer chainId s.

(** Modelled from the spec: [removeChainIndexer] of the same file ("for
    every running handle whose chain id is no longer desired, stop it
    cleanly"): the registered task stops and its entry is deleted;
    nothing happens when the chain has no entry. *)
Definition removeChainIndexer (chainId : Z) (s : State) : State :=
  match INDEXER_REGISTRY s !! chainId with
  | Some task =>
      mkState (delete chainId (INDEXER_REGISTRY s))
              (filter (fun t => t ≠ task) (running s))
              (nextSerial s)
  | None => s
  end.

(** [for (const chainId in INDEXER_REGISTRY)]: the keys when the loop
    starts. [Number.parseInt] of a key gives back the chain id that was
    stored under it. *)
Definition registryKeys (s : State) : list Z :=
  (map_to_list (INDEXER_REGISTRY s)).*1.

Definition addLoop (chainIdsToIndex : list Z) (s : State) : State :=
  foldl (fun s chainId =>
           if bool_decide (chainId ∈ dom (INDEXER_REGISTRY s))
           then s else addChainIndexer chainId s)
        s chainIdsToIndex.

Definition removeLoop (chainIdsToIndex keys : list Z) (s : State) : State :=
  foldl (fun s chainIdNum =>
           if bool_decide (chainIdNum ∈ chainIdsToIndex)
           then s else removeChainIndexer chainIdNum s)
        s keys.

(** One reconciliation run alone; [chainIdsToIndex] is what
    [getContractSubscriptionsUniqueChainIds] resolved to. *)
Definition manageChainIndexers (chainIdsToIndex : list Z) (s : State) : State :=
  let s1 := addLoop chainIdsToIndex s in
  removeLoop chainIdsToIndex (registryKeys s1) s1.

(** *** Two runs interleaved

    An async function runs without interruption until it awaits. A run
    is therefore suspended at one of these places only. *)
Inductive Pc : Type :=
| AtStart
| InAdd (chainId : Z) (todo : list Z)
| InRemoveLoop (todo : list Z)
| Finished.

(** The second loop from key [todo]: keys already deleted are skipped by
    [for-in]; a desired key goes on without awaiting; an undesired one
    is removed and the run awaits. *)
Fixpoint runRemoveLoop (chainIdsToIndex todo : list Z) (s : State) : Pc * State :=
  match todo with
  | [] => (Finished, s)
  | chainIdNum :: rest =>
      if bool_decide (chainIdNum ∈ dom (INDEXER_REGISTRY s))
         && negb (bool_decide (chainIdNum ∈ chainIdsToIndex))
      then (InRemoveLoop rest, removeChainIndexer chainIdNum s)
      else runRemoveLoop chainIdsToIndex rest s
  end.

(** The first loop from [todo]: a registered chain id goes on without
    awaiting; for another the run enters [addChainIndexer] and is
    suspended there. *)
Fixpoint runAddLoop (chainIdsToIndex todo : list Z) (s : State) : Pc * State :=
  match todo with
  | [] => runRemoveLoop chainIdsToIndex (registryKeys s) s
  | chainId :: rest =>
      if bool_decide (chainId ∈ dom (INDEXER_REGISTRY s))
      then runAddLoop chainIdsToIndex rest s
      else (InAdd chainId rest, s)
  end.

(** Resume a suspended run until its next suspension. *)
Definition resume (chainIdsToIndex : list Z) (pc : Pc) (s : State) : Pc * State :=
  match pc with
  | AtStart => runAddLoop chainIdsToIndex chainIdsToIndex s
  | InAdd chainId todo =>
      runAddLoop chainIdsToIndex todo (startChainIndexer chainId s)
  | InRemoveLoop todo => runRemoveLoop chainIdsToIndex todo s
  | Finished => (Finished, s)
  end.

(** One run resumed [fuel] times with nothing in between. *)
Fixpoint runAlone (chainIdsToIndex : list Z) (fuel : nat) (pc : Pc) (s : State)
  : Pc * State :=
  match fuel with
  | O => (pc, s)
  | S fuel' =>
      let '(pc', s') := resume chainIdsToIndex pc s in
      runAlone chainIdsToIndex fuel' pc' s'
  end.

(** Two runs for the same desired set; the schedule says which run is
    resumed next ([true]: the first). *)
Fixpoint interleave (chainIdsToIndex : list Z) (schedule : list bool)
  (pc1 pc2 : Pc) (s : State) : Pc * Pc * State :=
  match schedule with
  | [] => (pc1, pc2, s)
  | true :: schedule' =>
      let '(pc1', s') := resume chainIdsToIndex pc1 s in
      interleave chainIdsToIndex schedule' pc1' pc2 s'
  | false :: schedule' =>
      let '(pc2', s') := resume chainIdsToIndex pc2 s in
      interleave chainIdsToIndex schedule' pc1 pc2' s'
  end.

(** The tasks of chain [chainId] that run. *)
Definition runningFor (chainId : Z) (s : State) : list ScheduledTask :=
  filter (fun t => task_chainId t = chainId) (running s).

(** The registry and the running tasks agree. *)
Record consistent (s : State) : Prop := {
  registry_chain : forall c t, INDEXER_REGISTRY s !! c = Some t -> task_chainId t = c;
  running_nodup : NoDup (running s);
  running_registered : forall t, t ∈ running s <-> INDEXER_REGISTRY s !! task_chainId t = Some t;
  running_serial : forall t, t ∈ running s -> (task_serial t < nextSerial s)%nat;
}.

End Indexers.

(** ** The orchestration core

    The Store, the Nonce Manager and the workers are not among the
    sources at hand; the definitions below follow the specification. *)

(** Engine-wide settings. *)
Record Config : Type := mkConfig {
  stalenessThreshold : Z;
  maxEscalations : nat;
  retryThreshold : nat;
  idempotencyWindow : Z;
  bumpPercent : Z;
}.

Definition terminal (s : Status) : bool :=
  match s with
  | mined | errored | cancelled => true
  | queued | submitted => false
  end.

Inductive StoreError : Type :=
| NotFound
| InvalidTransition
| DuplicateIdempotencyKey (prior : string).

Module TxStore.

(** Modelled from the spec: the status machine of the Store. Sections 3
    and 4.3 give queued→submitted, submitted→mined, submitted→errored,
    queued→cancelled, queued→errored and the re-price
    submitted→submitted; sections 4.6, 7 and 8 add the reorg revert
    ("reverts the record's status back to submitted"), and by section 5
    "all mutation goes through its atomic compare-and-set transitions". *)
Definition legal (from to : Status) : bool :=
  match from, to with
  | queued, submitted
  | submitted, mined
  | submitted, errored
  | queued, cancelled
  | queued, errored
  | submitted, submitted
  | mined, submitted => true
  | _, _ => false
  end.

(** The fields a transition may write along with the status. *)
Record Fields : Type := mkFields {
  set_nonce : option Z;
  set_transactionHash : option string;
  set_fee : option Z;
  set_submittedAt : option Z;
  set_minedAt : option Z;
  set_blockNumber : option Z;
  set_errorMessage : option string;
  set_retryCount : option nat;
}.

Definition noFields : Fields :=
  mkFields None None None None None None None None.

Definition overwrite {A} (old new : option A) : option A :=
  match new with
  | Some x => Some x
  | None => old
  end.

(** Modelled from the spec: status and fields are written together;
    the nonce is "assigned once, immutable thereafter". *)
Definition applyFields (next : Status) (f : Fields) (r : TransactionRequest)
  : TransactionRequest :=
  {| queueId := queueId r;
     chainId := chainId r;
     from := from r;
     to := to r;
     data := data r;
     value := value r;
     idempotencyKey := idempotencyKey r;
     overrides := overrides r;
     nonce := match nonce r with Some n => Some n | None => set_nonce f end;
     status := next;
     transactionHash := overwrite (transactionHash r) (set_transactionHash f);
     fee := default (fee r) (set_fee f);
     submittedAt := overwrite (submittedAt r) (set_submittedAt f);
     minedAt := overwrite (minedAt r) (set_minedAt f);
     blockNumber := overwrite (blockNumber r) (set_blockNumber f);
     errorMessage := overwrite (errorMessage r) (set_errorMessage f);
     retryCount := default (retryCount r) (set_retryCount f) |}.

(** Rewrite the record stored under [id] (the one [lookup] finds). *)
Fixpoint updateRecord (id : string) (f : TransactionRequest -> TransactionRequest)
  (st : Store) : Store :=
  match st with
  | [] => []
  | r :: rest =>
      if String.eqb (queueId r) id then f r :: rest
      else r :: updateRecord id f rest
  end.

(** Modelled from the spec: "get(id) -> record | NotFound". *)
Definition get (id : string) : M Store StoreError TransactionRequest :=
  r ← gets (TransactionDB.lookup id);
  match r with
  | Some r => mret r
  | None => throw NotFound
  end.

(** Modelled from the spec: "listByStatus(status, chainId?) -> sequence". *)
Definition listByStatus (s : Status) (chain : option Z) (st : Store)
  : list TransactionRequest :=
  List.filter
    (fun r => bool_decide (status r = s)
              && from_option (fun c => bool_decide (chainId r = c)) true chain) st.

(** Modelled from the spec: "updateStatus(id, transition, fields) — must
    be a compare-and-set on the current status": the transition is the
    pair of the status expected now and the status to write. *)
Definition updateStatus (id : string) (transition : Status * Status) (fields : Fields)
  : M Store StoreError unit :=
  r ← get id;
  if legal transition.1 transition.2 && bool_decide (status r = transition.1)
  then modify (updateRecord id (applyFields transition.2 fields))
  else throw InvalidTransition.

(** Modelled from the spec: "markCancelled(id) fails with
    InvalidTransition if status is not queued". *)
Definition markCancelled (id : string) : M Store StoreError unit :=
  updateStatus id (queued, cancelled) noFields.

(** Modelled from the spec: a write that leaves the status alone (the
    Submission Worker keeping the assigned nonce and counting an
    ambiguous attempt on a record it leaves queued). *)
Definition keepQueued (id : string) (fields : Fields) : M Store StoreError unit :=
  r ← get id;
  if bool_decide (status r = queued)
  then modify (updateRecord id (applyFields queued fields))
  else throw InvalidTransition.

(** Modelled from the spec: (section 3) a record still guards its
    idempotency key while it is "non-terminal or recently-succeeded". *)
Definition guardsKey (cfg : Config) (now : Z) (r : TransactionRequest) : bool :=
  negb (terminal (status r))
  || (bool_decide (status r = mined)
      && from_option (fun t => now - t <=? idempotencyWindow cfg) false (minedAt r)).

Definition sharesKey (key : option string) (r : TransactionRequest) : bool :=
  match key, idempotencyKey r with
  | Some k, Some k' => String.eqb k k'
  | _, _ => false
  end.

(** Modelled from the spec: "insert(record) -> id (fails with
    DuplicateIdempotencyKey returning the prior id ...)". The id is
    generated here and differs from every stored one. *)
Definition insert (cfg : Config) (now : Z) (mk : string -> TransactionRequest)
  (key : option string) : M Store StoreError string :=
  prior ← gets (List.find (fun r => sharesKey key r && guardsKey cfg now r));
  match prior with
  | Some r => throw (DuplicateIdempotencyKey (queueId r))
  | None =>
      id ← gets (fun st : Store => fresh (queueId <$> st));
      modify (fun st : Store => st ++ [mk id]);;
      mret id
  end.

(** The edges listed in section 8 of the specification, with the
    fatal local failure of section 4.3. *)
Definition listedEdge (from to : Status) : bool :=
  match from, to with
  | queued, submitted
  | submitted, mined
  | submitted, errored
  | queued, cancelled
  | queued, errored
  | submitted, submitted => true
  | _, _ => false
  end.

(** The record is not terminal, or it was mined within the window
    before [now]. *)
Definition liveOrRecent (cfg : Config) (now : Z) (r : TransactionRequest) : Prop :=
  terminal (status r) = false
  \/ (status r = mined /\ exists t, minedAt r = Some t /\ now - t <= idempotencyWindow cfg).

End TxStore.

Module NonceManager.

(** A sender on a network: [(chainId, from)]. *)
Definition Wallet : Type := Z * string.

(** Modelled from the spec: WalletNonceState, per (chainId, from).
    [lastAssigned] is -1 until a nonce is handed out; [released] holds
    the nonces given back and not yet handed out again. *)
Record WalletNonceState : Type := mkWallet {
  lastAssigned : Z;
  lastConfirmedOnChain : Z;
  released : list Z;
}.

Definition freshWallet : WalletNonceState := mkWallet (-1) (-1) [].

(** What the manager did, in order. *)
Inductive NonceEvent : Type :=
| Assigned (w : Wallet) (n : Z)
| Released (w : Wallet) (n : Z).

#[global] Instance NonceEvent_eq_dec : EqDecision NonceEvent.
Proof. solve_decision. Defined.

Record State : Type := mkState {
  wallets : gmap Wallet WalletNonceState;
  history : list NonceEvent;
}.

Definition init : State := mkState ∅ [].

Definition walletState (w : Wallet) (s : State) : WalletNonceState :=
  default freshWallet (wallets s !! w).

Fixpoint insertSorted (n : Z) (l : list Z) : list Z :=
  match l with
  | [] => [n]
  | m :: rest => if n <=? m then n :: l else m :: insertSorted n rest
  end.

(** Modelled from the spec: "nextNonce(chainId, from) -> nonce". A
    released nonce is reused "by the next request for that sender";
    otherwise the next nonce after [lastAssigned] is handed out. *)
Definition nextNonce (w : Wallet) (s : State) : Z * State :=
  let ws := walletState w s in
  match released ws with
  | n :: rest =>
      (n, mkState (<[w := mkWallet (lastAssigned ws) (lastConfirmedOnChain ws) rest]> (wallets s))
                  (history s ++ [Assigned w n]))
  | [] =>
      let n := lastAssigned ws + 1 in
      (n, mkState (<[w := mkWallet n (lastConfirmedOnChain ws) []]> (wallets s))
                  (history s ++ [Assigned w n]))
  end.

(** Modelled from the spec: "on signing/broadcast failure the nonce must
    be released back for reuse". Releasing a nonce that is already
    released, or one above everything handed out, changes nothing. *)
Definition release (w : Wallet) (n : Z) (s : State) : State :=
  let ws := walletState w s in
  if bool_decide (n ∈ released ws) || (lastAssigned ws <? n) then s
  else mkState (<[w := mkWallet (lastAssigned ws) (lastConfirmedOnChain ws)
                               (insertSorted n (released ws))]> (wallets s))
               (history s ++ [Released w n]).

(** Modelled from the spec: reconciliation against the chain, where
    [observed] is the highest nonce the chain has accepted: "if the
    chain's nonce has advanced past lastAssigned ... lastAssigned is
    raised to match". *)
Definition reconcile (w : Wallet) (observed : Z) (s : State) : State :=
  let ws := walletState w s in
  mkState (<[w := mkWallet (Z.max (lastAssigned ws) observed) observed (released ws)]> (wallets s))
          (history s).

(** The nonces of [w] handed out in a history, in order. *)
Definition assignedTo (w : Wallet) (h : list NonceEvent) : list Z :=
  omap (fun e => match e with
                 | Assigned w' n => if decide (w' = w) then Some n else None
                 | Released _ _ => None
                 end) h.

(** In history [h] the nonce [n] of [w] was released and not handed out
    again since. *)
Definition releasedLast (w : Wallet) (n : Z) (h : list NonceEvent) : Prop :=
  exists h1 h2, h = h1 ++ Released w n :: h2 /\ Assigned w n ∉ h2.

(** Every assignment in the history is either above every earlier
    assignment for its sender, or the reuse of a released nonce. *)
Definition orderly (h : list NonceEvent) : Prop :=
  forall h1 h2 w n,
    h = h1 ++ Assigned w n :: h2 ->
    (forall m, m ∈ assignedTo w h1 -> m < n) \/ releasedLast w n h1.

(** What holds of the manager after any sequence of calls. *)
Record managed (s : State) : Prop := {
  assigned_below : forall w n,
    Assigned w n ∈ history s -> n <= lastAssigned (walletState w s);
  released_last : forall w n,
    n ∈ released (walletState w s) -> releasedLast w n (history s);
  released_nodup : forall w, NoDup (released (walletState w s));
  released_below : forall w n,
    n ∈ released (walletState w s) -> n <= lastAssigned (walletState w s);
  history_orderly : orderly (history s);
}.

End NonceManager.

(** ** The workers, as effects on the Store and the Nonce Manager *)
Module Workers.

Record Sys : Type := mkSys {
  store : Store;
  nonces : NonceManager.State;
}.

Definition init : Sys := mkSys [] NonceManager.init.

(** What the route layer hands to [enqueue]. *)
Record PreparedCall : Type := mkCall {
  call_chainId : Z;
  call_from : string;
  call_to : option string;
  call_data : string;
  call_value : Z;
}.

Inductive EngineError : Type :=
| ValidationError
| StoreFailure (e : StoreError).

Definition newRecord (call : PreparedCall) (key : option string) (feeOverride : option Z)
  (id : string) : TransactionRequest :=
  {| queueId := id;
     chainId := call_chainId call;
     from := call_from call;
     to := call_to call;
     data := call_data call;
     value := call_value call;
     idempotencyKey := key;
     overrides := feeOverride;
     nonce := None;
     status := queued;
     transactionHash := None;
     fee := 0;
     submittedAt := None;
     minedAt := None;
     blockNumber := None;
     errorMessage := None;
     retryCount := 0 |}.

(** Modelled from the spec: "enqueue(PreparedCall, idempotencyKey?,
    overrides?) -> id". Bad input is rejected before a record exists; an
    idempotency collision "is not a failure — returns prior id". *)
Definition enqueue (cfg : Config) (valid : PreparedCall -> bool) (now : Z)
  (call : PreparedCall) (key : option string) (feeOverride : option Z)
  : M Store EngineError string :=
  if negb (valid call) then throw ValidationError
  else fun st =>
    match TxStore.insert cfg now (newRecord call key feeOverride) key st with
    | (st', Ok id) => (st', Ok id)
    | (st', Throw (DuplicateIdempotencyKey prior)) => (st', Ok prior)
    | (st', Throw e) => (st', Throw (StoreFailure e))
    end.

(** The store after an operation (a failed one leaves it as it was). *)
Definition exec {E A} (m : M Store E A) (st : Store) : Store := (m st).1.

Inductive Broadcast : Type :=
| Accepted (txHash : string)
| Rejected (reason : string)
| Ambiguous.

Definition walletOf (r : TransactionRequest) : NonceManager.Wallet :=
  (chainId r, from r).

(** Modelled from the spec: (sections 4.2, 4.3) one attempt of the Submission
    Worker on record [id]. It acts on a queued record only; the nonce is
    the one the record already holds from an ambiguous attempt, or the
    next one; the fee is the caller's override if present, otherwise the
    [estimate] from the network. *)
Definition submit (cfg : Config) (now : Z) (id : string) (estimate : Z)
  (outcome : Broadcast) (s : Sys) : Sys :=
  match TransactionDB.lookup id (store s) with
  | Some r =>
      if bool_decide (status r = queued) then
        let feeNow := default estimate (overrides r) in
        let '(n, nm) :=
          match nonce r with
          | Some n => (n, nonces s)
          | None => NonceManager.nextNonce (walletOf r) (nonces s)
          end in
        match outcome with
        | Accepted txHash =>
            mkSys (exec (TxStore.updateStatus id (queued, submitted)
                           (TxStore.mkFields (Some n) (Some txHash) (Some feeNow)
                              (Some now) None None None None)) (store s))
                  nm
        | Rejected reason =>
            mkSys (exec (TxStore.updateStatus id (queued, errored)
                           (TxStore.mkFields None None None None None None
                              (Some reason) None)) (store s))
                  (NonceManager.release (walletOf r) n nm)
        | Ambiguous =>
            if bool_decide (retryThreshold cfg <= retryCount r)%nat then
              mkSys (exec (TxStore.updateStatus id (queued, errored)
                             (TxStore.mkFields (Some n) None None None None None
                                (Some "fatal local failure") None)) (store s))
                    nm
            else
              mkSys (exec (TxStore.keepQueued id
                             (TxStore.mkFields (Some n) None None None None None
                                None (Some (S (retryCount r))))) (store s))
                    nm
        end
      else s
  | None => s
  end.

(** The replacement-transaction rule: the new fee exceeds the recorded
    one by at least [bumpPercent] percent. *)
Definition materiallyExceeds (cfg : Config) (newFee oldFee : Z) : bool :=
  oldFee * (100 + bumpPercent cfg) <=? newFee * 100.

Definition stale (cfg : Config) (now : Z) (r : TransactionRequest) : bool :=
  from_option (fun t => stalenessThreshold cfg <=? now - t) false (submittedAt r).

Definition timeoutReason : string := "timeout".

(** Modelled from the spec: (section 4.4) one visit of the Confirmation & Retry
    Worker to record [id], which has no receipt; [estimate] is the
    re-estimated fee and [txHash] the hash of the replacement. *)
Definition retryTick (cfg : Config) (now : Z) (id : string) (estimate : Z)
  (txHash : string) (st : Store) : Store :=
  match TransactionDB.lookup id st with
  | Some r =>
      if bool_decide (status r = submitted) && stale cfg now r
         && materiallyExceeds cfg estimate (fee r) then
        if bool_decide (retryCount r < maxEscalations cfg)%nat then
          exec (TxStore.updateStatus id (submitted, submitted)
                  (TxStore.mkFields None (Some txHash) (Some estimate) (Some now)
                     None None None (Some (S (retryCount r))))) st
        else
          exec (TxStore.updateStatus id (submitted, errored)
                  (TxStore.mkFields None None None None None None
                     (Some timeoutReason) None)) st
      else st
  | None => st
  end.

(** One visit: the time, the re-estimated fee and the hash of the
    replacement transaction. *)
Record Visit : Type := mkVisit {
  v_now : Z;
  v_estimate : Z;
  v_txHash : string;
}.

(** The worker's visits to record [id] on a chain that never confirms
    it: no receipt arrives between them. *)
Definition retryLoop (cfg : Config) (id : string) (visits : list Visit) (st : Store)
  : Store :=
  foldl (fun st v => retryTick cfg (v_now v) id (v_estimate v) (v_txHash v) st)
        st visits.

(** The visit finds the record stale and the fee materially higher. *)
Definition pressing (cfg : Config) (v : Visit) (r : TransactionRequest) : bool :=
  stale cfg (v_now v) r && materiallyExceeds cfg (v_estimate v) (fee r).

(** The visit re-prices the record. *)
Definition reprices (cfg : Config) (v : Visit) (st : Store) (id : string) : bool :=
  match TransactionDB.lookup id st with
  | Some r =>
      bool_decide (status r = submitted) && pressing cfg v r
      && bool_decide (retryCount r < maxEscalations cfg)%nat
  | None => false
  end.

(** How many of the visits re-price the record. *)
Fixpoint escalations (cfg : Config) (id : string) (visits : list Visit) (st : Store)
  : nat :=
  match visits with
  | [] => 0%nat
  | v :: rest =>
      ((if reprices cfg v st id then 1 else 0)
       + escalations cfg id rest
           (retryTick cfg (v_now v) id (v_estimate v) (v_txHash v) st))%nat
  end.

(** Every visit that finds the record submitted finds it stale with a
    materially higher fee. *)
Fixpoint alwaysPressing (cfg : Config) (id : string) (visits : list Visit)
  (st : Store) : bool :=
  match visits with
  | [] => true
  | v :: rest =>
      match TransactionDB.lookup id st with
      | Some r => implb (bool_decide (status r = submitted)) (pressing cfg v r)
      | None => true
      end
      && alwaysPressing cfg id rest
           (retryTick cfg (v_now v) id (v_estimate v) (v_txHash v) st)
  end.

(** Modelled from the spec: (section 4.6) the Chain Indexer matched a receipt;
    success or revert tells mined from errored. *)
Definition confirm (now : Z) (id : string) (block : Z) (success : bool)
  (st : Store) : Store :=
  if success then
    exec (TxStore.updateStatus id (submitted, mined)
            (TxStore.mkFields None None None None (Some now) (Some block) None None)) st
  else
    exec (TxStore.updateStatus id (submitted, errored)
            (TxStore.mkFields None None None None None (Some block)
               (Some "reverted") None)) st.

(** Modelled from the spec: (section 4.6) the block of a mined transaction
    was superseded and the transaction is gone, so the record goes back
    to submitted. *)
Definition reorg (id : string) (st : Store) : Store :=
  exec (TxStore.updateStatus id (mined, submitted) TxStore.noFields) st.

(** What can happen to the engine. *)
Inductive Event : Type :=
| Enqueue (now : Z) (call : PreparedCall) (key : option string) (feeOverride : option Z)
| Submit (now : Z) (id : string) (estimate : Z) (outcome : Broadcast)
| RetryTick (now : Z) (id : string) (estimate : Z) (txHash : string)
| Confirm (now : Z) (id : string) (block : Z) (success : bool)
| Reorg (id : string)
| Cancel (id : string)
| Reconcile (w : NonceManager.Wallet) (observed : Z).

Definition step (cfg : Config) (valid : PreparedCall -> bool) (e : Event) (s : Sys) : Sys :=
  match e with
  | Enqueue now call key feeOverride =>
      mkSys (exec (enqueue cfg valid now call key feeOverride) (store s)) (nonces s)
  | Submit now id estimate outcome => submit cfg now id estimate outcome s
  | RetryTick now id estimate txHash =>
      mkSys (retryTick cfg now id estimate txHash (store s)) (nonces s)
  | Confirm now id block success =>
      mkSys (confirm now id block success (store s)) (nonces s)
  | Reorg id => mkSys (reorg id (store s)) (nonces s)
  | Cancel id => mkSys (exec (TxStore.markCancelled id) (store s)) (nonces s)
  | Reconcile w observed =>
      mkSys (store s) (NonceManager.reconcile w observed (nonces s))
  end.

Definition run (cfg : Config) (valid : PreparedCall -> bool) (events : list Event)
  (s : Sys) : Sys :=
  foldl (fun s e => step cfg valid e s) s events.


(** A record in one of these statuses keeps its nonce out of
    circulation: queued and submitted are the non-terminal ones, and a
    mined record may be reverted to submitted by a reorg. *)
Definition holdingStatus (s : Status) : bool :=
  match s with
  | queued | submitted | mined => true
  | errored | cancelled => false
  end.

Definition holding (r : TransactionRequest) : bool := holdingStatus (status r).

(** What holds of the engine after any sequence of events. *)
Record sound (s : Sys) : Prop := {
  sound_manager : NonceManager.managed (nonces s);
  held_outstanding : forall r n,
    r ∈ store s -> holding r = true -> nonce r = Some n ->
    (n ∉ NonceManager.released (NonceManager.walletState (walletOf r) (nonces s)))
    /\ n <= NonceManager.lastAssigned (NonceManager.walletState (walletOf r) (nonces s));
  held_once : forall i j ri rj n,
    store s !! i = Some ri -> store s !! j = Some rj ->
    walletOf ri = walletOf rj ->
    holding ri = true -> holding rj = true ->
    nonce ri = Some n -> nonce rj = Some n -> i = j;
}.

Definition isRelease (e : NonceManager.NonceEvent) : bool :=
  match e with
  | NonceManager.Released _ _ => true
  | NonceManager.Assigned _ _ => false
  end.

Definition releaseCount (h : list NonceManager.NonceEvent) : nat :=
  length (List.filter isRelease h).

Definition isRejection (e : Event) : bool :=
  match e with
  | Submit _ _ _ (Rejected _) => true
  | _ => false
  end.

Definition rejections (events : list Event) : nat :=
  length (List.filter isRejection events).

End Workers.

(** ** POST /backend-wallet/:chain/send-transaction-batch *)
Module SendTransactionBatch.

(** One element of the request body. *)
Record TransactionRequestBody : Type := mkBody {
  toAddress : option string;
  body_data : string;
  body_value : string;
  txOverrides : option string;
}.

(** The argument of [insertTransaction]. *)
Record InsertedTransaction : Type := mkInserted {
  isUserOp : bool;
  ins_chainId : Z;
  transactionMode : option string;
  ins_from : string;
  ins_to : option string;
  ins_data : string;
  ins_value : Z;
  ins_overrides : option Z;
}.

(** What a handler can throw: an error of the route layer, the
    [SyntaxError] of [BigInt], or an error of the engine. *)
Inductive Thrown : Type :=
| Custom (e : CustomError)
| SyntaxError
| Engine (e : Workers.EngineError).

(** The helpers the handler imports and the [BigInt] builtin ([None]:
    the string is no integer literal). *)
Class Helpers : Type := {
  getChainIdFromChain : string -> result CustomError Z;
  BigInt : string -> option Z;
  parseTransactionOverrides : option string -> option Z;
  valid : Workers.PreparedCall -> bool;
}.

Section handler.
Context `{Helpers} (cfg : Config) (now : Z).

Definition preparedCall (t : InsertedTransaction) : Workers.PreparedCall :=
  Workers.mkCall (ins_chainId t) (ins_from t) (ins_to t) (ins_data t) (ins_value t).

(** Modelled from the spec: [insertTransaction] of
    shared/utils/transaction/insert-transaction is the core's [enqueue];
    this route passes no idempotency key. *)
Definition insertTransaction (insertedTransaction : InsertedTransaction)
  : M Store Thrown string :=
  fun st =>
    match Workers.enqueue cfg valid now (preparedCall insertedTransaction) None
            (ins_overrides insertedTransaction) st with
    | (st', Ok id) => (st', Ok id)
    | (st', Throw e) => (st', Throw (Engine e))
    end.

(** The body of the [for ... of] loop. *)
Definition enqueueOne (chainId : Z) (transactionMode : option string)
  (fromAddress : string) (transactionRequest : TransactionRequestBody)
  : M Store Thrown string :=
  value ← (match BigInt (body_value transactionRequest) with
           | Some v => mret v
           | None => throw SyntaxError
           end);
  insertTransaction
    {| isUserOp := false;
       ins_chainId := chainId;
       transactionMode := transactionMode;
       ins_from := fromAddress;
       ins_to := toAddress transactionRequest;
       ins_data := body_data transactionRequest;
       ins_value := value;
       ins_overrides := parseTransactionOverrides (txOverrides transactionRequest) |}.

Definition sendTransactionBatch (chain fromAddress : string)
  (transactionMode : option string)
  (transactionRequests : list TransactionRequestBody)
  : M Store Thrown (Reply (list string)) :=
  chainId ← (match getChainIdFromChain chain with
             | Ok c => mret c
             | Throw e => throw (Custom e)
             end);
  queueIds ← forOf (enqueueOne chainId transactionMode fromAddress) transactionRequests;
  mret (send StatusCodes.OK queueIds).

(** The record the [i]-th element asks for, once its value is read. *)
Definition recordFor (chainId : Z) (fromAddress : string)
  (t : TransactionRequestBody) (id : string) : option TransactionRequest :=
  v ← BigInt (body_value t);
  Some (Workers.newRecord
          (Workers.mkCall chainId fromAddress (toAddress t) (body_data t) v)
          None (parseTransactionOverrides (txOverrides t)) id).

(** The element can be enqueued: its value is an integer literal and
    the engine accepts the call. *)
Definition accepted (chainId : Z) (fromAddress : string)
  (t : TransactionRequestBody) : bool :=
  match BigInt (body_value t) with
  | Some v => valid (Workers.mkCall chainId fromAddress (toAddress t) (body_data t) v)
  | None => false
  end.

(** The elements before the first one that cannot be enqueued. *)
Fixpoint acceptedPrefix (chainId : Z) (fromAddress : string)
  (ts : list TransactionRequestBody) : list TransactionRequestBody :=
  match ts with
  | [] => []
  | t :: rest =>
      if accepted chainId fromAddress t
      then t :: acceptedPrefix chainId fromAddress rest
      else []
  end.

End handler.
End SendTransactionBatch.

(** ** Sample collaborators and inputs *)
Module Samples.

Definition cfg : Config :=
  {| stalenessThreshold := 60;
     maxEscalations := 2;
     retryThreshold := 3;
     idempotencyWindow := 3600;
     bumpPercent := 10 |}.

(** A record just enqueued for sender 0xA on chain 137. *)
Definition queuedRecord : TransactionRequest :=
  {| queueId := "q0"; chainId := 137; from := "0xA"; to := Some "0xB";
     data := "0x"; value := 0; idempotencyKey := Some "key-1"; overrides := None;
     nonce := None; status := queued; transactionHash := None;
     fee := 0; submittedAt := None; minedAt := None;
     blockNumber := None; errorMessage := None; retryCount := 0 |}.

(** A record broadcast at time 5 with fee 10. *)
Definition submittedRecord : TransactionRequest :=
  {| queueId := "q2"; chainId := 137; from := "0xA"; to := Some "0xB";
     data := "0x"; value := 0; idempotencyKey := None; overrides := None;
     nonce := Some 1; status := submitted; transactionHash := Some "0xh1";
     fee := 10; submittedAt := Some 5; minedAt := None;
     blockNumber := None; errorMessage := None; retryCount := 0 |}.

(** A mined record, as the indexer leaves it. *)
Definition minedRecord : TransactionRequest :=
  {| queueId := "q1"; chainId := 137; from := "0xA"; to := Some "0xB";
     data := "0x"; value := 0; idempotencyKey := None; overrides := None;
     nonce := Some 0; status := mined; transactionHash := Some "0xhash";
     fee := 10; submittedAt := Some 5; minedAt := Some 9;
     blockNumber := Some 100; errorMessage := None; retryCount := 0 |}.

Definition call : Workers.PreparedCall :=
  Workers.mkCall 137 "0xA" (Some "0xB") "0x" 0.

(** Visits one staleness period apart, each with a fee a fifth higher. *)
Definition visits : list Workers.Visit :=
  [Workers.mkVisit 100 12 "0xh2"; Workers.mkVisit 200 15 "0xh3";
   Workers.mkVisit 300 18 "0xh4"].

Definition badChain : CustomError :=
  createCustomError "Invalid chain." StatusCodes.BAD_REQUEST "INVALID_CHAIN".

Definition resolveChain (chain : string) : result CustomError Z :=
  if String.eqb chain "polygon" then Ok 137
  else if String.eqb chain "137" then Ok 137
  else Throw badChain.

Definition logsSdk : GetLogs.Sdk :=
  {| GetLogs.getChainIdFromChain := resolveChain;
     GetLogs.getChain := fun c => Ok (mkChain c "https://rpc");
     GetLogs.eth_getTransactionReceipt := fun _ _ =>
       Ok (GetLogs.mkReceipt (Some "0xB") [GetLogs.mkLog "0xB" ["0xddf2"] "0x01" 0]);
     GetLogs.resolveContractAbi := fun _ _ =>
       Ok [GetLogs.mkAbiItem "event" "Transfer(address,address,uint256)";
           GetLogs.mkAbiItem "function" "transfer(address,uint256)"];
     GetLogs.PreparedEvent := string;
     GetLogs.prepareEvent := GetLogs.signature;
     GetLogs.ParsedLog := GetLogs.Log;
     GetLogs.parseEventLogs := fun _ logs => logs;
     GetLogs.LogJson := GetLogs.Log;
     GetLogs.serializeLogs := fun logs => logs;
     GetLogs.serializeParsedLogs := fun logs => logs |}.

Definition logsQuery : GetLogs.Querystring :=
  GetLogs.mkQuery "polygon" (Some "q1") None None.

Definition walletSdk : SmartWallet.WalletSdk :=
  {| SmartWallet.Account := string;
     SmartWallet.readFactory := fun _ _ => Ok "0xDefaultFactory";
     SmartWallet.getAccount := fun _ from => Ok from;
     SmartWallet.smartWalletConnect := fun _ factory account =>
       Ok (account +:+ "@" +:+ factory) |}.

Definition firstCall : SmartWallet.SmartWalletParams :=
  SmartWallet.mkParams (mkChain 137 "https://rpc-1") "0xAcc" "0xA" (Some "0xF1").

(** The same chain id, account and sender; another factory and another
    description of the chain. *)
Definition secondCall : SmartWallet.SmartWalletParams :=
  SmartWallet.mkParams (mkChain 137 "https://rpc-2") "0xAcc" "0xA" (Some "0xF2").

(** A stand-in for [BigInt] on the literals used below. *)
Definition parseAmount (s : string) : option Z :=
  if String.eqb s "0" then Some 0
  else if String.eqb s "10000000" then Some 10000000
  else None.

Definition batchHelpers : SendTransactionBatch.Helpers :=
  {| SendTransactionBatch.getChainIdFromChain := resolveChain;
     SendTransactionBatch.BigInt := parseAmount;
     SendTransactionBatch.parseTransactionOverrides := fun _ => None;
     SendTransactionBatch.valid := fun c => negb (String.eqb (Workers.call_from c) "") |}.

(** Three requests; the value of the third is no integer literal. *)
Definition batch : list SendTransactionBatch.TransactionRequestBody :=
  [SendTransactionBatch.mkBody (Some "0xB") "0x01" "10000000" None;
   SendTransactionBatch.mkBody None "0x02" "0" None;
   SendTransactionBatch.mkBody (Some "0xC") "0x03" "ten" None].

End Samples.

(** * Schemas, call sequences and interleaved runs *)

(** ** server/schemas/address.ts: the regular expressions *)
Module AddressSchemas.

(** The syntax the three schemas use: literal characters, a character
    class of ranges, sequencing, [r*] and [r{n}]. [Void], [Eps] and
    [Alt] arise as derivatives only. *)
Inductive regex : Type :=
| Void
| Eps
| Chr (c : ascii)
| Class (ranges : list (ascii * ascii))
| Seq (r1 r2 : regex)
| Alt (r1 r2 : regex)
| Star (r : regex).

(** [c] lies in the range [lo-hi] of a character class. *)
Definition inRange (c : ascii) (range : ascii * ascii) : bool :=
  (nat_of_ascii range.1 <=? nat_of_ascii c)%nat
  && (nat_of_ascii c <=? nat_of_ascii range.2)%nat.

Definition inClass (ranges : list (ascii * ascii)) (c : ascii) : bool :=
  existsb (inRange c) ranges.

(** [r{n}] *)
Fixpoint quantified (r : regex) (n : nat) : regex :=
  match n with
  | O => Eps
  | S n' => Seq r (quantified r n')
  end.

(** What a regular expression matches, as a whole. *)
Inductive matches : regex -> list ascii -> Prop :=
| MEps : matches Eps []
| MChr c : matches (Chr c) [c]
| MClass ranges c : inClass ranges c = true -> matches (Class ranges) [c]
| MSeq r1 r2 s1 s2 : matches r1 s1 -> matches r2 s2 -> matches (Seq r1 r2) (s1 ++ s2)
| MAltL r1 r2 s : matches r1 s -> matches (Alt r1 r2) s
| MAltR r1 r2 s : matches r2 s -> matches (Alt r1 r2) s
| MStarNil r : matches (Star r) []
| MStarApp r s1 s2 : matches r s1 -> matches (Star r) s2 -> matches (Star r) (s1 ++ s2).

Fixpoint nullable (r : regex) : bool :=
  match r with
  | Void | Chr _ | Class _ => false
  | Eps | Star _ => true
  | Seq r1 r2 => nullable r1 && nullable r2
  | Alt r1 r2 => nullable r1 || nullable r2
  end.

(** What is left to match after reading [c]. *)
Fixpoint deriv (c : ascii) (r : regex) : regex :=
  match r with
  | Void | Eps => Void
  | Chr c' => if Ascii.eqb c c' then Eps else Void
  | Class ranges => if inClass ranges c then Eps else Void
  | Seq r1 r2 =>
      if nullable r1
      then Alt (Seq (deriv c r1) r2) (deriv c r2)
      else Seq (deriv c r1) r2
  | Alt r1 r2 => Alt (deriv c r1) (deriv c r2)
  | Star r' => Seq (deriv c r') (Star r')
  end.

(** The matcher: does [r] match all of [s]? *)
Fixpoint accepts (r : regex) (s : list ascii) : bool :=
  match s with
  | [] => nullable r
  | c :: s' => accepts (deriv c r) s'
  end.

(** A pattern literal without flags: [/^body$/] has both anchors. *)
Record Pattern : Type := mkPattern {
  anchoredAtStart : bool;
  body : regex;
  anchoredAtEnd : bool;
}.

(** [new RegExp(pattern).test(value)]: some stretch of the value is
    matched; [^] admits the stretches that start the value only, [$]
    those that end it. *)
Definition test (p : Pattern) (value : string) : bool :=
  let l := String.list_ascii_of_string value in
  let starts := if anchoredAtStart p then [0%nat] else seq 0 (S (length l)) in
  existsb
    (fun i =>
       let ends :=
         if anchoredAtEnd p then [length l] else seq i (S (length l - i)) in
       existsb (fun j => (i <=? j)%nat && accepts (body p) (take (j - i) (drop i l)))
               ends)
    starts.

(** [[a-fA-F0-9]] *)
Definition hexDigit : regex :=
  Class [("a"%char, "f"%char); ("A"%char, "F"%char); ("0"%char, "9"%char)].

(** The characters the class stands for. *)
Definition hexDigits : list ascii :=
  String.list_ascii_of_string "0123456789abcdefABCDEF".

(** [/^0x[a-fA-F0-9]{40}$/] *)
Definition AddressSchema : Pattern :=
  mkPattern true (Seq (Chr "0") (Seq (Chr "x") (quantified hexDigit 40))) true.

(** [/^0x[a-fA-F0-9]{64}$/] *)
Definition TransactionHashSchema : Pattern :=
  mkPattern true (Seq (Chr "0") (Seq (Chr "x") (quantified hexDigit 64))) true.

(** [/^0x[a-fA-F0-9]*$/] *)
Definition HexSchema : Pattern :=
  mkPattern true (Seq (Chr "0") (Seq (Chr "x") (Star hexDigit))) true.

(** "0x" followed by hexadecimal digits. *)
Definition hexString (value : string) (digits : list ascii) : Prop :=
  String.list_ascii_of_string value = "0"%char :: "x"%char :: digits
  /\ Forall (fun c => c ∈ hexDigits) digits.

End AddressSchemas.

(** ** utils/cache/getSmartWalletV5.ts: calls one after another *)
Module SmartWalletCalls.
Import SmartWallet.

Section calls.
Context `{WalletSdk}.


End calls.
End SmartWalletCalls.

(** ** routes/transaction/blockchain/get-logs.ts: the handler's errors *)
Module GetLogsErrors.

(** The codes of the errors the handler itself makes. *)
Definition handlerCodes : list string :=
  ["MISSING_TRANSACTION_ID"; "TRANSACTION_NOT_MINED";
   "TRANSACTION_LOGS_UNAVAILABLE"; "NO_EVENTS_FOUND"].

Definition logsUnavailable : CustomError :=
  createCustomError "Transaction logs are only supported for contract calls."
    StatusCodes.BAD_REQUEST "TRANSACTION_LOGS_UNAVAILABLE".

End GetLogsErrors.

(** ** worker/tasks/manage-chain-indexers.ts: what interleaved runs keep *)
Module IndexerRuns.
Import Indexers.

(** From [s] to [s'] no desired chain lost its entry and no chain
    outside the desired ones gained one. *)
Definition gentle (chainIdsToIndex : list Z) (s s' : State) : Prop :=
  (forall k, k ∈ dom (INDEXER_REGISTRY s') ->
     k ∈ dom (INDEXER_REGISTRY s) \/ k ∈ chainIdsToIndex)
  /\ (forall k, k ∈ chainIdsToIndex -> k ∈ dom (INDEXER_REGISTRY s) ->
        k ∈ dom (INDEXER_REGISTRY s')).

(** What a run suspended at [pc] has achieved so far. *)
Definition achieved (chainIdsToIndex : list Z) (pc : Pc) (s : State) : Prop :=
  match pc with
  | AtStart => True
  | InAdd chainId todo =>
      chainId ∈ chainIdsToIndex
      /\ (forall x, x ∈ todo -> x ∈ chainIdsToIndex)
      /\ (forall x, x ∈ chainIdsToIndex ->
            x ∈ dom (INDEXER_REGISTRY s) \/ x = chainId \/ x ∈ todo)
  | InRemoveLoop todo =>
      (forall x, x ∈ chainIdsToIndex -> x ∈ dom (INDEXER_REGISTRY s))
      /\ (forall k, k ∈ dom (INDEXER_REGISTRY s) -> k ∈ chainIdsToIndex \/ k ∈ todo)
  | Finished =>
      forall k, k ∈ dom (INDEXER_REGISTRY s) <-> k ∈ chainIdsToIndex
  end.

End IndexerRuns.

(** ** Sample inputs for the properties of the routes and caches *)
Module MoreSamples.

Definition accountOne : string := "0x52908400098527886E0F7030069857D2E4169EE7".
Definition accountTwo : string := "0xde709f2102306220921060314715629080e2fb77".

(** Two calls for one account and sender that differ in the factory
    and in the description of the chain. *)
Definition walletCall : SmartWallet.SmartWalletParams :=
  SmartWallet.mkParams (mkChain 137 "https://rpc-1") accountOne accountTwo (Some "0xF1").

Definition walletCallAgain : SmartWallet.SmartWalletParams :=
  SmartWallet.mkParams (mkChain 137 "https://rpc-2") accountOne accountTwo None.


(** Requests for logs by transaction hash, parsed and raw, and one
    that names no transaction. *)
Definition hashQuery : GetLogs.Querystring :=
  GetLogs.mkQuery "polygon" None (Some "0xhash") None.

Definition rawQuery : GetLogs.Querystring :=
  GetLogs.mkQuery "polygon" None (Some "0xhash") (Some false).

Definition emptyQuery : GetLogs.Querystring :=
  GetLogs.mkQuery "polygon" None None None.

Definition polygon : Chain := mkChain 137 "https://rpc".

Definition receipt : GetLogs.TransactionReceipt :=
  GetLogs.mkReceipt (Some "0xB") [GetLogs.mkLog "0xB" ["0xddf2"] "0x01" 0].

Definition transferEvent : GetLogs.AbiItem :=
  GetLogs.mkAbiItem "event" "Transfer(address,address,uint256)".

Definition tokenAbi : list GetLogs.AbiItem :=
  [transferEvent; GetLogs.mkAbiItem "function" "transfer(address,uint256)"].

Definition missingId : CustomError :=
  createCustomError "Either a queue ID or transaction hash must be provided."
    StatusCodes.BAD_REQUEST "MISSING_TRANSACTION_ID".

(** Two runs taking turns. *)
Definition turns : list bool := [true; false; true; false].

End MoreSamples.

(** * Properties *)

(** ** Facts about the monad *)
Module EffFacts.

Lemma readsOnly_ret {S E A} (a : A) : readsOnly (mret a : M S E A).
Proof. by intros s. Qed.

Lemma readsOnly_throw {S E A} (e : E) : readsOnly (throw e : M S E A).
Proof. by intros s. Qed.

Lemma readsOnly_gets {S E A} (f : S -> A) : readsOnly (gets f : M S E A).
Proof. by intros s. Qed.

Lemma readsOnly_await {S E A} (r : result E A) : readsOnly (await r : M S E A).
Proof. by intros s. Qed.

Lemma readsOnly_bind {S E A B} (m : M S E A) (k : A -> M S E B) :
  readsOnly m -> (forall a, readsOnly (k a)) -> readsOnly (m ≫= k).
Proof.
  intros Hm Hk s. unfold mbind, M_bind, Eff.bind.
  specialize (Hm s). destruct (m s) as [s' [a|e]]; simpl in *; subst; [apply Hk | done].
Qed.

Create HintDb reads_only.
#[export] Hint Resolve readsOnly_ret readsOnly_throw readsOnly_gets readsOnly_await
  readsOnly_bind : reads_only.

Ltac reads_only :=
  repeat first
    [ apply readsOnly_bind; [| intros ?]
    | apply readsOnly_ret | apply readsOnly_throw
    | apply readsOnly_gets | apply readsOnly_await
    | match goal with
      | |- readsOnly (match ?x with _ => _ end) => destruct x
      | |- readsOnly (let _ := _ in _) => cbv zeta
      end ].

End EffFacts.

Module LoopFacts.

Lemma forOf_cons_ok {S E A B} (body : A -> M S E B) x xs s s' b :
  body x s = (s', Ok b) ->
  forOf body (x :: xs) s
  = ((forOf body xs s').1,
     match (forOf body xs s').2 with
     | Ok bs => Ok (b :: bs)
     | Throw e => Throw e
     end).
Proof.
  intros Hx. simpl. unfold Eff.bind at 1. rewrite Hx.
  unfold Eff.bind, Eff.ret. by destruct (forOf body xs s') as [s'' [bs|e]].
Qed.

Lemma forOf_cons_throw {S E A B} (body : A -> M S E B) x xs s s' e :
  body x s = (s', Throw e) ->
  forOf body (x :: xs) s = (s', Throw e).
Proof. intros Hx. simpl. unfold Eff.bind. by rewrite Hx. Qed.

End LoopFacts.

(** ** Facts about the transaction table *)
Module StoreFacts.

Lemma lookup_Some_elem id st r :
  TransactionDB.lookup id st = Some r -> r ∈ st /\ queueId r = id.
Proof.
  unfold TransactionDB.lookup. intros Hf.
  apply find_some in Hf as [Hin Heq].
  split; [by apply list_elem_of_In | by apply String.eqb_eq].
Qed.

Lemma lookup_None_absent id st :
  TransactionDB.lookup id st = None -> forall r, r ∈ st -> queueId r <> id.
Proof.
  unfold TransactionDB.lookup. intros Hf r Hin Heq.
  apply list_elem_of_In in Hin.
  pose proof (find_none _ _ Hf r Hin) as Hn. simpl in Hn.
  apply String.eqb_neq in Hn. done.
Qed.

End StoreFacts.

(** ** The status route *)
Module StatusRouteSpec.
Import StatusRoute.

(** C6: for every id, the status route answers 200 with the view of the
    record stored under that id when there is one, and throws the 400
    error TRANSACTION_NOT_FOUND when there is none; either way the table
    is left as it was. *)
Theorem getStatus_view_or_not_found `{TransactionSchema} (id : string) (st : Store) :
  (exists r, r ∈ st /\ queueId r = id /\
     getTransactionStatusRoute id st
       = (st, Ok (send StatusCodes.OK (toTransactionSchema r))))
  \/ ((forall r, r ∈ st -> queueId r <> id) /\
      exists e, getTransactionStatusRoute id st = (st, Throw e)
        /\ code e = "TRANSACTION_NOT_FOUND"
        /\ statusCode e = StatusCodes.BAD_REQUEST
        /\ isClientError e = true).
Proof.
  unfold getTransactionStatusRoute, TransactionDB.get, mbind, M_bind, Eff.bind, gets.
  destruct (TransactionDB.lookup id st) as [r|] eqn:Hl.
  - left. exists r. apply StoreFacts.lookup_Some_elem in Hl as [? ?]. done.
  - right. split; [by apply StoreFacts.lookup_None_absent|].
    eexists. split; [reflexivity|]. done.
Qed.
End StatusRouteSpec.

(** ** The logs route *)
Module GetLogsSpec.
Import GetLogs EffFacts.

Lemma getTransactionLogs_readsOnly `{Sdk} (query : Querystring) :
  readsOnly (getTransactionLogs query).
Proof. unfold getTransactionLogs, TransactionDB.get. reads_only. Qed.


(** C9: a logs request that names a non-empty queue id, on a chain that
    resolves, never changes the table; it can answer with logs only if a
    record with that id exists and is mined; and when no record with
    that id is mined (none exists, or it is queued, submitted, errored
    or cancelled) it throws the 400 error TRANSACTION_NOT_MINED. *)
Theorem getTransactionLogs_by_queueId `{Sdk} (query : Querystring) (st : Store)
    (chainId : Z) (c : Chain) (id : string) :
  getChainIdFromChain (chain query) = Ok chainId ->
  getChain chainId = Ok c ->
  q_queueId query = Some id ->
  id <> "" ->
  (getTransactionLogs query st).1 = st
  /\ (forall reply, (getTransactionLogs query st).2 = Ok reply ->
        exists r, r ∈ st /\ queueId r = id /\ status r = mined)
  /\ ((forall r, r ∈ st -> queueId r = id -> status r <> mined) ->
        (getTransactionLogs query st).2 = Throw notMined
        /\ statusCode notMined = StatusCodes.BAD_REQUEST
        /\ isClientError notMined = true).
Proof.
  intros Hc Hch Hq Hid. split; [apply getTransactionLogs_readsOnly|].
  assert (Ht : truthy (q_queueId query) = true).
  { rewrite Hq. simpl. apply negb_true_iff. by apply String.eqb_neq. }
  unfold getTransactionLogs, TransactionDB.get, await, gets, throw.
  unfold mbind, M_bind, Eff.bind, mret, M_ret, Eff.ret.
  rewrite Hc, Hch, Ht, Hq. simpl.
  destruct (TransactionDB.lookup id st) as [r|] eqn:Hl.
  - apply StoreFacts.lookup_Some_elem in Hl as [Hin Heq].
    destruct (decide (status r = mined)) as [Hm|Hm].
    + split.
      * intros _ _. by exists r.
      * intros Hno. by destruct (Hno r Hin Heq).
    + simpl. split; [intros ? [=]|]. done.
  - simpl. split; [intros ? [=]|]. done.
Qed.

End GetLogsSpec.

(** ** The smart-wallet cache *)
Module SmartWalletSpec.
Import SmartWallet.

Lemma cacheKey_ignores_factory (p q : SmartWalletParams) :
  chain_id (chain p) = chain_id (chain q) ->
  accountAddress p = accountAddress q ->
  sw_from p = sw_from q ->
  cacheKey p = cacheKey q.
Proof. unfold cacheKey. by intros -> -> ->. Qed.

Lemma getSmartWalletV5_caches `{WalletSdk} (p : SmartWalletParams)
    (cache cache' : gmap string Account) (w : Account) :
  getSmartWalletV5 p cache = (cache', Ok w) ->
  cache' !! cacheKey p = Some w.
Proof.
  unfold getSmartWalletV5, await, gets, modify, throw.
  unfold mbind, M_bind, Eff.bind, mret, M_ret, Eff.ret.
  destruct (cache !! cacheKey p) as [w0|] eqn:Hc.
  - intros [= <- <-]. done.
  - destruct (negb (truthy (accountFactoryAddress p))).
    + destruct (readFactory _ _); [|done].
      destruct (getAccount _ _); [|done].
      destruct (smartWalletConnect _ _ _); [|done].
      intros [= <- <-]. apply lookup_insert_eq.
    + destruct (getAccount _ _); [|done].
      destruct (smartWalletConnect _ _ _); [|done].
      intros [= <- <-]. apply lookup_insert_eq.
Qed.

(** C10: after a call that returned wallet [w], any call with the same
    chain id, account address and sender returns [w] from the cache and
    leaves the cache alone, whatever factory address (or other chain
    field) it carries. *)
Theorem getSmartWalletV5_second_call_hits `{WalletSdk} (p q : SmartWalletParams)
    (cache cache' : gmap string Account) (w : Account) :
  chain_id (chain p) = chain_id (chain q) ->
  accountAddress p = accountAddress q ->
  sw_from p = sw_from q ->
  getSmartWalletV5 p cache = (cache', Ok w) ->
  getSmartWalletV5 q cache' = (cache', Ok w).
Proof.
  intros Hc Ha Hf Hfirst.
  apply getSmartWalletV5_caches in Hfirst.
  rewrite (cacheKey_ignores_factory p q Hc Ha Hf) in Hfirst.
  unfold getSmartWalletV5, gets. unfold mbind, M_bind, Eff.bind.
  by rewrite Hfirst.
Qed.

End SmartWalletSpec.

(** ** The batch route *)
Module SendTransactionBatchSpec.
Import SendTransactionBatch.

Section loop.
Context `{Helpers} (cfg : Config) (now : Z).
Variables (chainId : Z) (mode : option string) (fromAddress : string).

Lemma insert_without_key (mk : string -> TransactionRequest) (st : Store) :
  TxStore.insert cfg now mk None st
  = (st ++ [mk (fresh (queueId <$> st))], Ok (fresh (queueId <$> st))).
Proof.
  unfold TxStore.insert, gets, modify.
  unfold mbind, M_bind, Eff.bind, mret, M_ret, Eff.ret.
  replace (find _ st) with (@None TransactionRequest); [done|].
  symmetry. induction st as [|r st IH]; [done|]. simpl. done.
Qed.

Lemma enqueueOne_accepted (t : TransactionRequestBody) (st : Store) :
  accepted chainId fromAddress t = true ->
  exists rec,
    recordFor chainId fromAddress t (fresh (queueId <$> st)) = Some rec
    /\ enqueueOne cfg now chainId mode fromAddress t st
       = (st ++ [rec], Ok (fresh (queueId <$> st))).
Proof.
  unfold accepted, recordFor, enqueueOne, insertTransaction, Workers.enqueue, preparedCall.
  unfold mbind at 2. unfold M_bind, Eff.bind.
  destruct (BigInt (body_value t)) as [v|]; [|done]. simpl.
  intros ->. simpl. rewrite insert_without_key. eauto.
Qed.

Lemma enqueueOne_refused (t : TransactionRequestBody) (st : Store) :
  accepted chainId fromAddress t = false ->
  exists e, enqueueOne cfg now chainId mode fromAddress t st = (st, Throw e).
Proof.
  unfold accepted, enqueueOne, insertTransaction, Workers.enqueue, preparedCall.
  unfold mbind. unfold M_bind, Eff.bind.
  destruct (BigInt (body_value t)) as [v|]; simpl; [|eauto].
  intros ->. simpl. eauto.
Qed.

Lemma recordFor_queueId (t : TransactionRequestBody) (id : string) rec :
  recordFor chainId fromAddress t id = Some rec ->
  queueId rec = id /\ status rec = queued.
Proof.
  unfold recordFor. destruct (BigInt (body_value t)); simpl; [|done].
  by intros [= <-].
Qed.

Lemma batch_loop (reqs : list TransactionRequestBody) (st : Store) :
  let good := acceptedPrefix chainId fromAddress reqs in
  let out := forOf (enqueueOne cfg now chainId mode fromAddress) reqs st in
  exists ids news,
    out.1 = st ++ news
    /\ length ids = length good
    /\ Some <$> news = zip_with (recordFor chainId fromAddress) good ids
    /\ NoDup ids
    /\ (forall id, id ∈ ids -> id ∉ queueId <$> st)
    /\ (good = reqs -> out.2 = Ok ids)
    /\ (good <> reqs -> exists e, out.2 = Throw e).
Proof.
  revert st. induction reqs as [|t reqs IH]; intros st; cbv zeta.
  - exists [], []. simpl. rewrite app_nil_r.
    repeat split; try done; [apply NoDup_nil_2 | by intros ? ?%elem_of_nil].
  - cbn [acceptedPrefix]. destruct (accepted chainId fromAddress t) eqn:Hacc.
    + destruct (enqueueOne_accepted t st Hacc) as (rec & Hrec & Hrun).
      rewrite (LoopFacts.forOf_cons_ok _ _ _ _ _ _ Hrun).
      destruct (IH (st ++ [rec])) as (ids & news & Hst & Hlen & Hnews & Hnd & Hfresh & Hok & Hko).
      apply recordFor_queueId in Hrec as Hid. destruct Hid as [Hid _].
      exists (fresh (queueId <$> st) :: ids), (rec :: news).
      cbn [fst snd]. repeat split.
      * by rewrite Hst, <- app_assoc.
      * simpl. by rewrite Hlen.
      * rewrite fmap_cons, Hnews. simpl. by rewrite Hrec.
      * constructor; [|done]. intros Hin. apply Hfresh in Hin.
        apply Hin. rewrite fmap_app. apply elem_of_app. right.
        simpl. rewrite Hid. by apply list_elem_of_singleton.
      * intros id [->|Hin]%elem_of_cons.
        -- apply infinite_is_fresh.
        -- apply Hfresh in Hin. rewrite fmap_app in Hin.
           intros Hin'. apply Hin. apply elem_of_app. by left.
      * intros [= Heq]. by rewrite (Hok Heq).
      * intros Hne. destruct Hko as [e He]; [congruence|]. rewrite He. eauto.
    + destruct (enqueueOne_refused t st Hacc) as (e & Hrun).
      rewrite (LoopFacts.forOf_cons_throw _ _ _ _ _ _ Hrun).
      exists [], []. simpl. rewrite app_nil_r.
      repeat split; try done; [apply NoDup_nil_2 | by intros ? ?%elem_of_nil | eauto].
Qed.

End loop.

(** C8: on a chain that resolves, the batch route creates, in list
    order and after the records already stored, one queued record for
    each element before the first one that cannot be enqueued; the ids
    are new and distinct, the i-th id is the id of the record made from
    the i-th element; when every element is accepted the reply is 200
    with exactly these ids, otherwise the handler throws and the records
    created so far stay. *)
Theorem sendTransactionBatch_in_order `{Helpers} (cfg : Config) (now : Z)
    (chain fromAddress : string) (mode : option string)
    (reqs : list TransactionRequestBody) (st : Store) (chainId : Z) :
  getChainIdFromChain chain = Ok chainId ->
  let good := acceptedPrefix chainId fromAddress reqs in
  let out := sendTransactionBatch cfg now chain fromAddress mode reqs st in
  exists ids news,
    out.1 = st ++ news
    /\ length ids = length good
    /\ Some <$> news = zip_with (recordFor chainId fromAddress) good ids
    /\ NoDup ids
    /\ (forall id, id ∈ ids -> id ∉ queueId <$> st)
    /\ (good = reqs -> out.2 = Ok (send StatusCodes.OK ids))
    /\ (good <> reqs -> exists e, out.2 = Throw e).
Proof.
  intros Hc good out.
  destruct (batch_loop cfg now chainId mode fromAddress reqs st)
    as (ids & news & Hst & Hlen & Hnews & Hnd & Hfresh & Hok & Hko).
  exists ids, news. subst out. unfold sendTransactionBatch.
  unfold mbind, M_bind, Eff.bind, mret, M_ret, Eff.ret. rewrite Hc.
  destruct (forOf (enqueueOne cfg now chainId mode fromAddress) reqs st)
    as [st' [bs|e]] eqn:Hrun; simpl in *.
  - repeat split; try done.
    + intros Heq. specialize (Hok Heq). by simplify_eq.
    + intros Hne. destruct (Hko Hne) as [? ?]. done.
  - repeat split; try done.
    + intros Heq. specialize (Hok Heq). done.
    + eauto.
Qed.

End SendTransactionBatchSpec.

(** ** The indexer registry *)
Module IndexersSpec.
Import Indexers.

Lemma consistent_empty : consistent Indexers.empty.
Proof.
  split; simpl.
  - intros c t. by rewrite lookup_empty.
  - apply NoDup_nil_2.
  - intros t. rewrite lookup_empty. split; [by intros ?%elem_of_nil | done].
  - by intros t ?%elem_of_nil.
Qed.

Lemma consistent_start (c : Z) (s : State) :
  consistent s -> c ∉ dom (INDEXER_REGISTRY s) ->
  consistent (startChainIndexer c s).
Proof.
  intros [Hchain Hnd Hreg Hser] Hc.
  apply not_elem_of_dom in Hc.
  assert (Hnew : mkTask c (nextSerial s) ∉ running s).
  { intros Hin. apply Hser in Hin. simpl in Hin. lia. }
  split; simpl.
  - intros c' t. rewrite lookup_insert. case_decide; [by intros [= <-]; subst | apply Hchain].
  - apply NoDup_app. split; [done|]. split; [|apply NoDup_singleton].
    intros t Hin ->%list_elem_of_singleton. done.
  - intros t. rewrite elem_of_app, list_elem_of_singleton, lookup_insert.
    case_decide as Hd.
    + split.
      * intros [Hin| ->]; [|done]. apply Hreg in Hin. congruence.
      * intros [= <-]. by right.
    + split.
      * intros [Hin| ->]; [by apply Hreg | by destruct Hd].
      * intros Hin. left. by apply Hreg.
  - intros t [Hin| ->%list_elem_of_singleton]%elem_of_app.
    + apply Hser in Hin. lia.
    + simpl. lia.
Qed.

Lemma consistent_remove (c : Z) (s : State) :
  consistent s -> consistent (removeChainIndexer c s).
Proof.
  intros Hs. pose proof Hs as [Hchain Hnd Hreg Hser].
  unfold removeChainIndexer.
  destruct (INDEXER_REGISTRY s !! c) as [task|] eqn:Hc; [|done].
  split; simpl.
  - intros c' t. rewrite lookup_delete. case_decide; [done | apply Hchain].
  - by apply NoDup_filter.
  - intros t. rewrite list_elem_of_filter, lookup_delete.
    case_decide as Hd.
    + split; [|done]. intros [Hne Hin]. apply Hreg in Hin.
      rewrite <- Hd, Hc in Hin. congruence.
    + split.
      * intros [_ Hin]. by apply Hreg.
      * intros Hin. split; [|by apply Hreg].
        intros ->. apply Hchain in Hc. congruence.
  - intros t [_ Hin]%list_elem_of_filter. by apply Hser.
Qed.

Lemma dom_start (c : Z) (s : State) :
  dom (INDEXER_REGISTRY (startChainIndexer c s)) = {[c]} ∪ dom (INDEXER_REGISTRY s).
Proof. simpl. apply dom_insert_L. Qed.

Lemma dom_remove (c : Z) (s : State) :
  dom (INDEXER_REGISTRY (removeChainIndexer c s)) = dom (INDEXER_REGISTRY s) ∖ {[c]}.
Proof.
  unfold removeChainIndexer.
  destruct (INDEXER_REGISTRY s !! c) as [task|] eqn:Hc; simpl.
  - apply dom_delete_L.
  - apply not_elem_of_dom in Hc. set_solver.
Qed.

Lemma addLoop_spec (D : list Z) (s : State) :
  consistent s ->
  consistent (addLoop D s)
  /\ dom (INDEXER_REGISTRY (addLoop D s)) = dom (INDEXER_REGISTRY s) ∪ list_to_set D.
Proof.
  revert s. induction D as [|c D IH]; intros s Hs; simpl.
  - split; [done | set_solver].
  - case_bool_decide as Hc.
    + destruct (IH s Hs) as [? Hd]. split; [done|]. rewrite Hd. set_solver.
    + destruct (IH (addChainIndexer c s)) as [? Hd].
      { by apply consistent_start. }
      split; [done|]. rewrite Hd. unfold addChainIndexer. rewrite dom_start. set_solver.
Qed.

Lemma removeLoop_spec (D keys : list Z) (s : State) :
  consistent s ->
  consistent (removeLoop D keys s)
  /\ dom (INDEXER_REGISTRY (removeLoop D keys s))
     = filter (fun k => k ∉ keys \/ k ∈ D) (dom (INDEXER_REGISTRY s)).
Proof.
  revert s. induction keys as [|k keys IH]; intros s Hs; simpl.
  - split; [done|]. apply set_eq. intros x. rewrite elem_of_filter. set_solver.
  - case_bool_decide as Hk.
    + destruct (IH s Hs) as [? Hd]. split; [done|]. rewrite Hd.
      apply set_eq. intros x. rewrite !elem_of_filter, elem_of_cons.
      destruct (decide (x = k)) as [->|]; naive_solver.
    + destruct (IH (removeChainIndexer k s)) as [? Hd].
      { by apply consistent_remove. }
      split; [done|]. rewrite Hd, dom_remove.
      apply set_eq. intros x. rewrite !elem_of_filter, elem_of_cons, elem_of_difference,
        elem_of_singleton.
      destruct (decide (x = k)) as [->|]; naive_solver.
Qed.

Lemma registryKeys_dom (s : State) (k : Z) :
  k ∈ registryKeys s <-> k ∈ dom (INDEXER_REGISTRY s).
Proof.
  unfold registryKeys. rewrite elem_of_dom. split.
  - intros [[k' t] [-> Hin]]%list_elem_of_fmap. apply elem_of_map_to_list in Hin. by eexists.
  - intros [t Ht]. apply list_elem_of_fmap. exists (k, t). split; [done|].
    by apply elem_of_map_to_list.
Qed.

Lemma manageChainIndexers_dom (D : list Z) (s : State) :
  consistent s ->
  consistent (manageChainIndexers D s)
  /\ dom (INDEXER_REGISTRY (manageChainIndexers D s)) = list_to_set D.
Proof.
  intros Hs. unfold manageChainIndexers.
  destruct (addLoop_spec D s Hs) as [H1 Hd1].
  destruct (removeLoop_spec D (registryKeys (addLoop D s)) (addLoop D s) H1) as [H2 Hd2].
  split; [done|]. rewrite Hd2, Hd1.
  apply set_eq. intros x. rewrite elem_of_filter, registryKeys_dom, Hd1.
  rewrite elem_of_union, elem_of_list_to_set. naive_solver.
Qed.

Lemma addLoop_settled (D : list Z) (s : State) :
  list_to_set D ⊆ dom (INDEXER_REGISTRY s) -> addLoop D s = s.
Proof.
  induction D as [|c D IH]; intros Hsub; simpl; [done|].
  rewrite bool_decide_eq_true_2 by set_solver. apply IH. set_solver.
Qed.

Lemma removeLoop_settled (D keys : list Z) (s : State) :
  (forall k, k ∈ keys -> k ∈ D) -> removeLoop D keys s = s.
Proof.
  induction keys as [|k keys IH]; intros Hsub; simpl; [done|].
  rewrite bool_decide_eq_true_2 by (apply Hsub; left). apply IH.
  intros k' Hk'. apply Hsub. by right.
Qed.

Lemma manageChainIndexers_settled (D : list Z) (s : State) :
  dom (INDEXER_REGISTRY s) = list_to_set D -> manageChainIndexers D s = s.
Proof.
  intros Hd. unfold manageChainIndexers.
  rewrite addLoop_settled by (by rewrite Hd).
  apply removeLoop_settled. intros k Hk.
  apply registryKeys_dom in Hk. rewrite Hd in Hk. by apply elem_of_list_to_set in Hk.
Qed.

Lemma runningFor_registered (c : Z) (s : State) (t : ScheduledTask) :
  consistent s -> INDEXER_REGISTRY s !! c = Some t -> runningFor c s = [t].
Proof.
  intros [Hchain Hnd Hreg Hser] Hc. unfold runningFor.
  assert (Hin : t ∈ filter (fun t => task_chainId t = c) (running s)).
  { apply list_elem_of_filter. pose proof (Hchain _ _ Hc) as Ht. split; [done|].
    apply Hreg. by rewrite Ht. }
  assert (Hall : forall t', t' ∈ filter (fun t => task_chainId t = c) (running s) -> t' = t).
  { intros t' [Hc' Hin']%list_elem_of_filter. apply Hreg in Hin'.
    rewrite Hc' in Hin'. congruence. }
  assert (Hnd' : NoDup (filter (fun t => task_chainId t = c) (running s))).
  { by apply NoDup_filter. }
  destruct (filter _ (running s)) as [|a [|b l]].
  - by apply elem_of_nil in Hin.
  - f_equal. apply Hall. by left.
  - assert (a = t) by (apply Hall; by left).
    assert (b = t) by (apply Hall; right; by left).
    subst. apply NoDup_cons in Hnd' as [Hnotin _]. destruct Hnotin. by left.
Qed.

Lemma runningFor_unregistered (c : Z) (s : State) :
  consistent s -> INDEXER_REGISTRY s !! c = None -> runningFor c s = [].
Proof.
  intros [Hchain Hnd Hreg Hser] Hc. unfold runningFor.
  destruct (filter _ (running s)) as [|a l] eqn:Hf; [done|].
  assert (Hin : a ∈ filter (fun t => task_chainId t = c) (running s)).
  { rewrite Hf. by left. }
  apply list_elem_of_filter in Hin as [Ha Hin]. apply Hreg in Hin.
  rewrite Ha in Hin. congruence.
Qed.

Lemma runAlone_finished D fuel s : runAlone D fuel Finished s = (Finished, s).
Proof. induction fuel as [|fuel IH]; [done|]. simpl. apply IH. Qed.

Lemma removeChainIndexer_absent c s :
  c ∉ dom (INDEXER_REGISTRY s) -> removeChainIndexer c s = s.
Proof.
  intros Hc%not_elem_of_dom. unfold removeChainIndexer. by rewrite Hc.
Qed.

Lemma remove_alone D todo : forall s fuel,
  (length todo <= fuel)%nat ->
  (let '(pc, s') := runRemoveLoop D todo s in runAlone D fuel pc s')
  = (Finished, removeLoop D todo s).
Proof.
  induction todo as [|k rest IH]; intros s fuel Hfuel; simpl.
  - apply runAlone_finished.
  - simpl in Hfuel.
    case_bool_decide as Hdom; case_bool_decide as HD; cbn [andb negb].
    + apply IH. lia.
    + destruct fuel as [|fuel]; [lia|]. cbn [runAlone resume]. apply IH. lia.
    + apply IH. lia.
    + rewrite removeChainIndexer_absent by done. apply IH. lia.
Qed.

Lemma add_alone D todo : forall s fuel,
  (length todo + length (registryKeys (addLoop todo s)) <= fuel)%nat ->
  (let '(pc, s') := runAddLoop D todo s in runAlone D fuel pc s')
  = (Finished, removeLoop D (registryKeys (addLoop todo s)) (addLoop todo s)).
Proof.
  induction todo as [|c rest IH]; intros s fuel Hfuel; simpl in Hfuel |- *.
  - apply remove_alone. lia.
  - case_bool_decide as Hdom.
    + apply IH. lia.
    + destruct fuel as [|fuel]; [lia|]. cbn [runAlone resume]. apply IH. lia.
Qed.

(** A run resumed alone until it finishes does what
    [manageChainIndexers] computes. *)
Lemma runAlone_manageChainIndexers (D : list Z) (s : State) (fuel : nat) :
  (length D + length (registryKeys (addLoop D s)) < fuel)%nat ->
  runAlone D fuel AtStart s = (Finished, manageChainIndexers D s).
Proof.
  intros Hfuel. destruct fuel as [|fuel]; [lia|]. cbn [runAlone resume].
  apply add_alone. lia.
Qed.

(** C4, for runs that do not overlap: from a state in which registry and
    running tasks agree, one run for the desired chain ids [D] leaves
    exactly one running, registered task for each chain id of [D] and
    none for any other chain id, and a second run for the same [D]
    changes nothing. *)
Theorem manageChainIndexers_idempotent (D : list Z) (s : State) :
  consistent s ->
  let s' := manageChainIndexers D s in
  consistent s'
  /\ dom (INDEXER_REGISTRY s') = list_to_set D
  /\ (forall c, c ∈ D ->
        exists t, INDEXER_REGISTRY s' !! c = Some t /\ runningFor c s' = [t])
  /\ (forall c, c ∉ D ->
        INDEXER_REGISTRY s' !! c = None /\ runningFor c s' = [])
  /\ manageChainIndexers D s' = s'.
Proof.
  intros Hs. cbv zeta. destruct (manageChainIndexers_dom D s Hs) as [Hs' Hd].
  revert Hs' Hd. generalize (manageChainIndexers D s). intros s' Hs' Hd.
  split; [done|]. split; [done|]. split; [|split].
  - intros c Hc.
    assert (Hin : c ∈ dom (INDEXER_REGISTRY s')).
    { rewrite Hd. by apply elem_of_list_to_set. }
    apply elem_of_dom in Hin as [t Ht]. exists t. split; [done|].
    by apply runningFor_registered.
  - intros c Hc.
    assert (Hn : INDEXER_REGISTRY s' !! c = None).
    { apply not_elem_of_dom. rewrite Hd. by rewrite elem_of_list_to_set. }
    split; [done|]. by apply runningFor_unregistered.
  - by apply manageChainIndexers_settled.
Qed.

(** C4, counterexample for overlapping runs. *)
(** Two runs for the desired set {1}, started together on an empty
    registry and resumed in turn: both find chain 1 unregistered before
    either has recorded its task, so two tasks run for chain 1 and the
    registry points at the second only. *)
Lemma interleaved_runs_duplicate :
  let '(pc1, pc2, s) :=
    interleave [1] [true; false; true; false] AtStart AtStart Indexers.empty in
  pc1 = Finished /\ pc2 = Finished
  /\ runningFor 1 s = [mkTask 1 0; mkTask 1 1]
  /\ INDEXER_REGISTRY s !! 1 = Some (mkTask 1 1)
  /\ ~ (exists t, runningFor 1 s = [t]).
Proof.
  vm_compute. repeat split; try reflexivity. intros [t Ht]. discriminate Ht.
Qed.

End IndexersSpec.

(** ** The Store *)
Module TxStoreSpec.
Import TxStore.

Lemma updateStatus_unfold id tr fields st :
  updateStatus id tr fields st =
  match TransactionDB.lookup id st with
  | None => (st, Throw NotFound)
  | Some r =>
      if legal tr.1 tr.2 && bool_decide (status r = tr.1)
      then (updateRecord id (applyFields tr.2 fields) st, Ok ())
      else (st, Throw InvalidTransition)
  end.
Proof.
  unfold updateStatus, get, gets, modify, throw.
  unfold mbind, M_bind, Eff.bind, mret, M_ret, Eff.ret.
  destruct (TransactionDB.lookup id st) as [r|]; [|done].
  by destruct (legal _ _ && _).
Qed.

Lemma lookup_updateRecord_eq id g st :
  (forall r, queueId (g r) = queueId r) ->
  TransactionDB.lookup id (updateRecord id g st) = g <$> TransactionDB.lookup id st.
Proof.
  intros Hg. unfold TransactionDB.lookup.
  induction st as [|r st IH]; simpl; [done|].
  destruct (String.eqb (queueId r) id) eqn:He; simpl.
  - by rewrite Hg, He.
  - by rewrite He.
Qed.

Lemma lookup_updateRecord_ne id id' g st :
  (forall r, queueId (g r) = queueId r) -> id <> id' ->
  TransactionDB.lookup id' (updateRecord id g st) = TransactionDB.lookup id' st.
Proof.
  intros Hg Hne. unfold TransactionDB.lookup.
  induction st as [|r st IH]; simpl; [done|].
  destruct (String.eqb (queueId r) id) eqn:He; simpl.
  - apply String.eqb_eq in He. rewrite Hg.
    assert (Hn : String.eqb (queueId r) id' = false) by (apply String.eqb_neq; congruence).
    by rewrite Hn.
  - by rewrite IH.
Qed.

(** Position by position, [updateRecord] leaves a record alone or
    rewrites the one [lookup] finds. *)
Lemma updateRecord_at id g st i r :
  st !! i = Some r ->
  updateRecord id g st !! i = Some r
  \/ (TransactionDB.lookup id st = Some r /\ updateRecord id g st !! i = Some (g r)).
Proof.
  revert i. unfold TransactionDB.lookup.
  induction st as [|r0 st IH]; intros i Hi; [done|]. simpl.
  destruct (String.eqb (queueId r0) id) eqn:He.
  - destruct i as [|i]; simpl in *.
    + right. by simplify_eq.
    + by left.
  - destruct i as [|i]; simpl in *.
    + by left.
    + by apply IH.
Qed.

Lemma length_updateRecord id g st : length (updateRecord id g st) = length st.
Proof.
  induction st as [|r st IH]; simpl; [done|].
  destruct (String.eqb (queueId r) id); simpl; by rewrite ?IH.
Qed.

Lemma legal_listed (a b : Status) :
  legal a b = true <-> listedEdge a b = true \/ (a = mined /\ b = submitted).
Proof. destruct a, b; simpl; naive_solver. Qed.

(** C2, with the reorg revert: [markCancelled] is the update
    queued→cancelled; [updateStatus] succeeds exactly when the record
    exists, its status is the one the transition expects and the
    transition is legal; a failed update leaves the table as it was; a
    successful one rewrites the record found under the id and no other;
    and the legal transitions are the six listed ones and
    mined→submitted. *)
Theorem updateStatus_compare_and_set (id : string) (tr : Status * Status)
    (fields : Fields) (st : Store) :
  let out := updateStatus id tr fields st in
  markCancelled id = updateStatus id (queued, cancelled) noFields
  /\ (out.2 = Ok () <->
     exists r, TransactionDB.lookup id st = Some r /\ status r = tr.1
               /\ legal tr.1 tr.2 = true)
  /\ (out.2 <> Ok () -> out.1 = st)
  /\ (out.2 = Ok () ->
        TransactionDB.lookup id out.1
        = applyFields tr.2 fields <$> TransactionDB.lookup id st)
  /\ (forall i r, st !! i = Some r ->
        exists r', out.1 !! i = Some r'
          /\ (r' = r \/ (status r = tr.1 /\ status r' = tr.2
                         /\ legal (status r) (status r') = true)))
  /\ (forall a b, legal a b = true <->
        listedEdge a b = true \/ (a = mined /\ b = submitted)).
Proof.
  cbv zeta. split; [done|]. rewrite updateStatus_unfold.
  destruct (TransactionDB.lookup id st) as [r|] eqn:Hl; simpl.
  - destruct (legal tr.1 tr.2) eqn:Hlegal; simpl.
    + case_bool_decide as Hs; simpl.
      * split; [split; [by eauto | done]|].
        split; [done|]. split.
        { intros _. rewrite lookup_updateRecord_eq by done. by rewrite Hl. }
        split; [|apply legal_listed].
        intros i r0 Hi. destruct (updateRecord_at id (applyFields tr.2 fields) st i r0 Hi)
          as [Hsame|[Hfound Hupd]].
        -- eauto.
        -- exists (applyFields tr.2 fields r0). split; [done|]. right.
           assert (r0 = r) by congruence. subst r0. simpl.
           by rewrite Hs.
      * split; [split; [done | intros (r0 & [= <-] & ? & _); done]|].
        split; [done|]. split; [done|]. split; [by eauto | apply legal_listed].
    + split; [split; [done | intros (r0 & _ & _ & ?); done]|].
      split; [done|]. split; [done|]. split; [by eauto | apply legal_listed].
  - split; [split; [done | intros (r0 & ? & _); done]|].
    split; [done|]. split; [done|]. split; [by eauto | apply legal_listed].
Qed.

(** C2, counterexample. *)
(** The reorg revert is an update that succeeds along an edge the
    sentence does not list. *)
Lemma updateStatus_reorg_revert :
  (updateStatus "q1" (mined, submitted) noFields [Samples.minedRecord]).2 = Ok ()
  /\ status <$> TransactionDB.lookup "q1" [Samples.minedRecord] = Some mined
  /\ status <$> TransactionDB.lookup "q1"
       (updateStatus "q1" (mined, submitted) noFields [Samples.minedRecord]).1 = Some submitted
  /\ listedEdge mined submitted = false.
Proof. vm_compute. done. Qed.

(** C5: for a stored record, [markCancelled] succeeds exactly when the
    record is queued; it then makes it cancelled, a terminal status, and
    leaves every other record alone; otherwise it fails with
    InvalidTransition and the table is unchanged. *)
Theorem markCancelled_only_queued (id : string) (st : Store) (r : TransactionRequest) :
  TransactionDB.lookup id st = Some r ->
  let out := markCancelled id st in
  (out.2 = Ok () <-> status r = queued)
  /\ (status r = queued ->
        TransactionDB.lookup id out.1 = Some (applyFields cancelled noFields r)
        /\ status (applyFields cancelled noFields r) = cancelled
        /\ terminal cancelled = true
        /\ (forall id', id' <> id ->
              TransactionDB.lookup id' out.1 = TransactionDB.lookup id' st))
  /\ (status r <> queued -> out = (st, Throw InvalidTransition)).
Proof.
  intros Hl. cbv zeta. unfold markCancelled. rewrite updateStatus_unfold, Hl. simpl.
  case_bool_decide as Hs; simpl.
  - split; [done|]. split; [|done]. intros _.
    split; [by rewrite lookup_updateRecord_eq, Hl|].
    split; [done|]. split; [done|].
    intros id' Hne. by apply lookup_updateRecord_ne.
  - split; [done|]. split; [done|]. done.
Qed.

End TxStoreSpec.

(** ** Enqueue and idempotency keys *)
Module EnqueueSpec.
Import TxStore Workers.

Lemma guardsKey_spec cfg now r :
  guardsKey cfg now r = true <-> liveOrRecent cfg now r.
Proof.
  unfold guardsKey, liveOrRecent.
  rewrite orb_true_iff, negb_true_iff, andb_true_iff, bool_decide_eq_true.
  destruct (minedAt r) as [t|]; simpl.
  - rewrite Z.leb_le. naive_solver.
  - naive_solver.
Qed.

Lemma sharesKey_spec k r :
  sharesKey (Some k) r = true <-> idempotencyKey r = Some k.
Proof.
  unfold sharesKey. destruct (idempotencyKey r) as [k'|]; [|done].
  rewrite String.eqb_eq. naive_solver.
Qed.

Lemma insert_unfold cfg now mk key st :
  insert cfg now mk key st =
  match List.find (fun r => sharesKey key r && guardsKey cfg now r) st with
  | Some r => (st, Throw (DuplicateIdempotencyKey (queueId r)))
  | None => (st ++ [mk (fresh (queueId <$> st))], Ok (fresh (queueId <$> st)))
  end.
Proof.
  unfold insert, gets, modify, throw.
  unfold mbind, M_bind, Eff.bind, mret, M_ret, Eff.ret.
  by destruct (find _ st).
Qed.

(** C3: a valid call enqueued with key [k]: when some stored record with
    key [k] is non-terminal or was mined within the window, the id of
    such a record is returned and the table is unchanged; otherwise
    exactly one record is appended, queued, under an id no stored record
    has, and that id is returned. *)
Theorem enqueue_idempotent (cfg : Config) (valid : PreparedCall -> bool) (now : Z)
    (call : PreparedCall) (k : string) (feeOverride : option Z) (st : Store) :
  valid call = true ->
  let out := enqueue cfg valid now call (Some k) feeOverride st in
  ((exists r, r ∈ st /\ idempotencyKey r = Some k /\ liveOrRecent cfg now r) ->
     out.1 = st
     /\ exists r, r ∈ st /\ idempotencyKey r = Some k /\ liveOrRecent cfg now r
                  /\ out.2 = Ok (queueId r))
  /\ (~ (exists r, r ∈ st /\ idempotencyKey r = Some k /\ liveOrRecent cfg now r) ->
        exists id, (id ∉ queueId <$> st)
          /\ out.1 = st ++ [newRecord call (Some k) feeOverride id]
          /\ out.2 = Ok id
          /\ status (newRecord call (Some k) feeOverride id) = queued
          /\ queueId (newRecord call (Some k) feeOverride id) = id).
Proof.
  intros Hvalid. cbv zeta. unfold enqueue. rewrite Hvalid. simpl.
  rewrite insert_unfold.
  destruct (find _ st) as [r0|] eqn:Hf.
  - apply find_some in Hf as [Hin Hr0]. apply list_elem_of_In in Hin.
    apply andb_true_iff in Hr0 as [Hk Hg].
    apply sharesKey_spec in Hk. apply guardsKey_spec in Hg.
    split.
    + intros _. split; [done|]. by exists r0.
    + intros Hno. destruct Hno. by exists r0.
  - split.
    + intros (r & Hin & Hk & Hg). apply list_elem_of_In in Hin.
      pose proof (find_none _ _ Hf r Hin) as Hn. cbv beta in Hn.
      assert (Hk' : sharesKey (Some k) r = true) by (by apply sharesKey_spec).
      assert (Hg' : guardsKey cfg now r = true) by (by apply guardsKey_spec).
      by rewrite Hk', Hg' in Hn.
    + intros _. exists (fresh (queueId <$> st)).
      split; [apply infinite_is_fresh|]. done.
Qed.

End EnqueueSpec.

(** ** The Confirmation & Retry Worker *)
Module RetrySpec.
Import TxStore Workers TxStoreSpec.






End RetrySpec.

(** ** The Nonce Manager *)
Module NonceManagerSpec.
Import NonceManager.

Lemma snoc_split {A} (h h1 h2 : list A) (x y : A) :
  h ++ [x] = h1 ++ y :: h2 ->
  (exists h2', h2 = h2' ++ [x] /\ h = h1 ++ y :: h2') \/ (h2 = [] /\ h1 = h /\ x = y).
Proof.
  destruct h2 as [|z h2 _] using rev_ind.
  - intros Heq. right. apply app_inj_tail in Heq as [-> ->]. done.
  - intros Heq. left. exists h2.
    rewrite app_comm_cons, app_assoc in Heq.
    apply app_inj_tail in Heq as [-> ->]. done.
Qed.

Lemma elem_of_assignedTo w n h : n ∈ assignedTo w h <-> Assigned w n ∈ h.
Proof.
  unfold assignedTo. rewrite list_elem_of_omap. split.
  - intros ([w' n'|w' n'] & Hin & Heq); [|done].
    destruct (decide (w' = w)); by simplify_eq.
  - intros Hin. exists (Assigned w n). split; [done|]. by rewrite decide_True.
Qed.

Lemma releasedLast_snoc w n h e :
  releasedLast w n h -> e <> Assigned w n -> releasedLast w n (h ++ [e]).
Proof.
  intros (h1 & h2 & -> & Hno) He. exists h1, (h2 ++ [e]).
  split; [by rewrite <- app_assoc|].
  rewrite elem_of_app, list_elem_of_singleton. naive_solver.
Qed.

Lemma releasedLast_now w n h : releasedLast w n (h ++ [Released w n]).
Proof. exists h, []. split; [done | apply not_elem_of_nil]. Qed.

Lemma orderly_snoc_other h e :
  orderly h -> (forall w n, e <> Assigned w n) -> orderly (h ++ [e]).
Proof.
  intros Ho He h1 h2 w n Heq.
  apply snoc_split in Heq as [(h2' & -> & ->)|(_ & _ & ->)].
  - by apply (Ho h1 h2').
  - by destruct (He w n).
Qed.

Lemma orderly_snoc_assigned h w n :
  orderly h ->
  (forall m, m ∈ assignedTo w h -> m < n) \/ releasedLast w n h ->
  orderly (h ++ [Assigned w n]).
Proof.
  intros Ho Hn h1 h2 w' n' Heq.
  apply snoc_split in Heq as [(h2' & -> & ->)|(_ & -> & [= <- <-])].
  - by apply (Ho h1 h2').
  - done.
Qed.

Lemma walletState_insert w w' ws m h :
  walletState w' (mkState (<[w := ws]> m) h)
  = if decide (w = w') then ws else walletState w' (mkState m h).
Proof.
  unfold walletState. simpl. rewrite lookup_insert.
  by destruct (decide (w = w')).
Qed.

Lemma walletState_history w m h h' :
  walletState w (mkState m h) = walletState w (mkState m h').
Proof. done. Qed.

Lemma managed_init : managed init.
Proof.
  split; simpl.
  - by intros w n ?%elem_of_nil.
  - intros w n. unfold walletState. simpl. rewrite lookup_empty. simpl. by intros ?%elem_of_nil.
  - intros w. unfold walletState. simpl. rewrite lookup_empty. apply NoDup_nil_2.
  - intros w n. unfold walletState. simpl. rewrite lookup_empty. simpl. by intros ?%elem_of_nil.
  - intros h1 h2 w n Heq. by destruct h1.
Qed.

Lemma elem_of_insertSorted n m l : m ∈ insertSorted n l <-> m = n \/ m ∈ l.
Proof.
  induction l as [|a l IH]; simpl.
  - rewrite list_elem_of_singleton. set_solver.
  - destruct (n <=? a).
    + rewrite !elem_of_cons. naive_solver.
    + rewrite !elem_of_cons, IH. naive_solver.
Qed.

Lemma NoDup_insertSorted n l : n ∉ l -> NoDup l -> NoDup (insertSorted n l).
Proof.
  induction l as [|a l IH]; simpl; intros Hn Hnd.
  - apply NoDup_singleton.
  - apply not_elem_of_cons in Hn as [Hna Hnl]. apply NoDup_cons in Hnd as [Ha Hnd].
    destruct (n <=? a).
    + apply NoDup_cons. split; [|by apply NoDup_cons].
      rewrite elem_of_cons. naive_solver.
    + apply NoDup_cons. split; [|by apply IH].
      rewrite elem_of_insertSorted. naive_solver.
Qed.


Lemma nextNonce_unfold w s :
  nextNonce w s =
  match released (walletState w s) with
  | n :: rest =>
      (n, mkState (<[w := mkWallet (lastAssigned (walletState w s))
                             (lastConfirmedOnChain (walletState w s)) rest]> (wallets s))
                  (history s ++ [Assigned w n]))
  | [] =>
      (lastAssigned (walletState w s) + 1,
       mkState (<[w := mkWallet (lastAssigned (walletState w s) + 1)
                          (lastConfirmedOnChain (walletState w s)) []]> (wallets s))
               (history s ++ [Assigned w (lastAssigned (walletState w s) + 1)]))
  end.
Proof. done. Qed.

(** The wallet states after [nextNonce], seen from any wallet. *)
Lemma nextNonce_wallets w s w' :
  let '(n, s') := nextNonce w s in
  history s' = history s ++ [Assigned w n]
  /\ (w' <> w -> walletState w' s' = walletState w' s)
  /\ ((released (walletState w s) = n :: released (walletState w s')
       /\ lastAssigned (walletState w s') = lastAssigned (walletState w s))
      \/ (released (walletState w s) = [] /\ released (walletState w s') = []
          /\ n = lastAssigned (walletState w s) + 1
          /\ lastAssigned (walletState w s') = n)).
Proof.
  rewrite nextNonce_unfold. destruct s as [m h].
  destruct (released (walletState w (mkState m h))) as [|n rest] eqn:Hr.
  - split; [done|]. split.
    + intros Hne. rewrite walletState_insert. by rewrite decide_False.
    + right. rewrite walletState_insert, decide_True by done. done.
  - split; [done|]. split.
    + intros Hne. rewrite walletState_insert. by rewrite decide_False.
    + left. rewrite walletState_insert, decide_True by done. done.
Qed.

Lemma managed_nextNonce w s :
  managed s -> managed (nextNonce w s).2.
Proof.
  intros [Hab Hrl Hnd Hrb Ho].
  pose proof (nextNonce_wallets w s) as Hw.
  destruct (nextNonce w s) as [n s']. simpl.
  assert (Hother : forall w', w' <> w -> walletState w' s' = walletState w' s).
  { intros w'. by destruct (Hw w') as (_ & ? & _). }
  destruct (Hw w) as (Hh & _ & Hcase). clear Hw.
  split.
  - intros w' m. rewrite Hh, elem_of_app, list_elem_of_singleton.
    destruct (decide (w' = w)) as [->|Hne].
    + intros [Hin|[= ->]].
      * apply Hab in Hin. destruct Hcase as [[_ ->]|(_ & _ & -> & ->)]; lia.
      * destruct Hcase as [[Hr ->]|(_ & _ & _ & ->)]; [|lia].
        apply Hrb. rewrite Hr. by left.
    + rewrite Hother by done. intros [Hin|[= -> ->]]; [by apply Hab | done].
  - intros w' m Hin. rewrite Hh.
    destruct (decide (w' = w)) as [->|Hne].
    + destruct Hcase as [[Hr _]|(_ & Hr & _)]; [|rewrite Hr in Hin; by apply elem_of_nil in Hin].
      apply releasedLast_snoc.
      * apply Hrl. rewrite Hr. by right.
      * intros [= ->]. specialize (Hnd w). rewrite Hr in Hnd.
        apply NoDup_cons in Hnd as [Hnotin _]. done.
    + rewrite Hother in Hin by done. apply releasedLast_snoc; [by apply Hrl|].
      intros [= -> ->]. done.
  - intros w'. destruct (decide (w' = w)) as [->|Hne].
    + destruct Hcase as [[Hr _]|(_ & Hr & _)].
      * specialize (Hnd w). rewrite Hr in Hnd. by apply NoDup_cons in Hnd as [_ ?].
      * rewrite Hr. apply NoDup_nil_2.
    + rewrite Hother by done. apply Hnd.
  - intros w' m Hin. destruct (decide (w' = w)) as [->|Hne].
    + destruct Hcase as [[Hr ->]|(_ & Hr & _)].
      * apply Hrb. rewrite Hr. by right.
      * rewrite Hr in Hin. by apply elem_of_nil in Hin.
    + rewrite Hother in * by done. by apply Hrb.
  - rewrite Hh. apply orderly_snoc_assigned; [done|].
    destruct Hcase as [[Hr _]|(_ & _ & -> & _)].
    + right. apply Hrl. rewrite Hr. by left.
    + left. intros m Hm%elem_of_assignedTo. apply Hab in Hm. lia.
Qed.

Lemma release_unfold w n s :
  release w n s =
  if bool_decide (n ∈ released (walletState w s)) || (lastAssigned (walletState w s) <? n)
  then s
  else mkState (<[w := mkWallet (lastAssigned (walletState w s))
                          (lastConfirmedOnChain (walletState w s))
                          (insertSorted n (released (walletState w s)))]> (wallets s))
               (history s ++ [Released w n]).
Proof. done. Qed.

(** The wallet states after [release], seen from any wallet. *)
Lemma release_wallets w n s w' :
  lastAssigned (walletState w' (release w n s)) = lastAssigned (walletState w' s)
  /\ (forall m, m ∈ released (walletState w' (release w n s)) ->
        m ∈ released (walletState w' s) \/ (w' = w /\ m = n)).
Proof.
  rewrite release_unfold. destruct (_ || _); [by eauto|].
  destruct s as [m0 h]. rewrite walletState_insert.
  destruct (decide (w = w')) as [->|Hne]; simpl.
  - split; [done|]. intros m [->|?]%elem_of_insertSorted; eauto.
  - split; [done|]. eauto.
Qed.

Lemma managed_release w n s : managed s -> managed (release w n s).
Proof.
  intros Hm. pose proof Hm as [Hab Hrl Hnd Hrb Ho]. rewrite release_unfold.
  destruct (bool_decide (n ∈ released (walletState w s))) eqn:Hin; [done|].
  apply bool_decide_eq_false in Hin.
  destruct (lastAssigned (walletState w s) <? n) eqn:Hlt; [done|].
  apply Z.ltb_ge in Hlt. simpl. destruct s as [m0 h]. simpl in *.
  split; simpl.
  - intros w' m. rewrite elem_of_app, list_elem_of_singleton, walletState_insert.
    intros [Hi|?]; [|done]. apply Hab in Hi. by destruct (decide (w = w')) as [->|].
  - intros w' m. rewrite walletState_insert.
    destruct (decide (w = w')) as [<-|Hne]; simpl.
    + intros [->|Hi]%elem_of_insertSorted; [apply releasedLast_now|].
      apply releasedLast_snoc; [by apply Hrl | done].
    + intros Hi. apply releasedLast_snoc; [by apply Hrl | done].
  - intros w'. rewrite walletState_insert.
    destruct (decide (w = w')) as [<-|Hne]; simpl; [|apply Hnd].
    by apply NoDup_insertSorted.
  - intros w' m. rewrite walletState_insert.
    destruct (decide (w = w')) as [<-|Hne]; simpl; [|apply Hrb].
    intros [->|Hi]%elem_of_insertSorted; [done | by apply Hrb].
  - by apply orderly_snoc_other.
Qed.

Lemma reconcile_wallets w observed s w' :
  lastAssigned (walletState w' s) <= lastAssigned (walletState w' (reconcile w observed s))
  /\ released (walletState w' (reconcile w observed s)) = released (walletState w' s)
  /\ history (reconcile w observed s) = history s.
Proof.
  unfold reconcile. destruct s as [m0 h]. rewrite walletState_insert.
  destruct (decide (w = w')) as [->|Hne]; simpl; [|done].
  split; [lia | done].
Qed.

Lemma managed_reconcile w observed s : managed s -> managed (reconcile w observed s).
Proof.
  intros [Hab Hrl Hnd Hrb Ho].
  split.
  - intros w' m. destruct (reconcile_wallets w observed s w') as (Hle & _ & ->).
    intros Hi%Hab. lia.
  - intros w' m. destruct (reconcile_wallets w observed s w') as (_ & -> & ->). apply Hrl.
  - intros w'. destruct (reconcile_wallets w observed s w') as (_ & -> & _). apply Hnd.
  - intros w' m. destruct (reconcile_wallets w observed s w') as (Hle & -> & _).
    intros Hi%Hrb. lia.
  - by destruct (reconcile_wallets w observed s w) as (_ & _ & ->).
Qed.

End NonceManagerSpec.

(** ** Nonces and records *)
Module NonceSpec.
Import NonceManager Workers TxStore TxStoreSpec NonceManagerSpec.

Lemma sound_init : sound Workers.init.
Proof.
  split; simpl.
  - apply managed_init.
  - by intros r n ?%elem_of_nil.
  - by intros i j ri rj n ?.
Qed.

Lemma updateRecord_insert id st r :
  TransactionDB.lookup id st = Some r ->
  exists i, st !! i = Some r /\ forall g, updateRecord id g st = <[i := g r]> st.
Proof.
  unfold TransactionDB.lookup.
  induction st as [|r0 st IH]; simpl; [done|].
  destruct (String.eqb (queueId r0) id) eqn:He.
  - intros [= ->]. by exists 0%nat.
  - intros Hl. destruct (IH Hl) as (i & Hi & Hg). exists (S i).
    split; [done|]. intros g. by rewrite Hg.
Qed.

(** Rewriting the record at position [i] and moving to the manager
    state [nm']. *)
Lemma sound_rewrite (s : Sys) (i : nat) (r r' : TransactionRequest) (nm' : State) :
  sound s -> store s !! i = Some r -> walletOf r' = walletOf r -> managed nm' ->
  (forall j rj n, j <> i -> store s !! j = Some rj ->
     holding rj = true -> nonce rj = Some n ->
     (n ∉ released (walletState (walletOf rj) nm'))
     /\ n <= lastAssigned (walletState (walletOf rj) nm')) ->
  (forall n, holding r' = true -> nonce r' = Some n ->
     ((n ∉ released (walletState (walletOf r) nm'))
      /\ n <= lastAssigned (walletState (walletOf r) nm'))
     /\ (forall j rj, j <> i -> store s !! j = Some rj ->
           walletOf rj = walletOf r -> holding rj = true -> nonce rj <> Some n)) ->
  sound (mkSys (<[i := r']> (store s)) nm').
Proof.
  intros [Hm Hout Honce] Hi Hw Hm' Hothers Hnew.
  assert (Hlt : (i < length (store s))%nat) by (by eapply lookup_lt_Some).
  split; cbn [store nonces].
  - done.
  - intros r0 n [j Hj]%list_elem_of_lookup Hh Hn.
    destruct (decide (j = i)) as [->|Hne].
    + rewrite list_lookup_insert_eq in Hj by done.
      assert (r0 = r') as -> by congruence.
      rewrite Hw. by apply Hnew.
    + rewrite list_lookup_insert_ne in Hj by done. by eapply Hothers.
  - intros j k rj rk n Hj Hk Hwjk Hhj Hhk Hnj Hnk.
    destruct (decide (j = i)) as [->|Hnej], (decide (k = i)) as [->|Hnek]; [done|..].
    + rewrite list_lookup_insert_eq in Hj by done.
      rewrite list_lookup_insert_ne in Hk by done.
      assert (rj = r') as -> by congruence.
      destruct (Hnew n Hhj Hnj) as [_ Hdiff].
      destruct (Hdiff k rk); [done | done | congruence | done | done].
    + rewrite list_lookup_insert_ne in Hj by done.
      rewrite list_lookup_insert_eq in Hk by done.
      assert (rk = r') as -> by congruence.
      destruct (Hnew n Hhk Hnk) as [_ Hdiff].
      destruct (Hdiff j rj); [done | done | congruence | done | done].
    + rewrite list_lookup_insert_ne in Hj, Hk by done.
      by eapply Honce.
Qed.

(** A rewrite that keeps the nonce and does not bring a record back
    into a holding status, under the same manager state. *)
Lemma sound_update_keep (s : Sys) (id : string)
    (g : TransactionRequest -> TransactionRequest) :
  sound s ->
  (forall r, walletOf (g r) = walletOf r) ->
  (forall r, TransactionDB.lookup id (store s) = Some r ->
     nonce (g r) = nonce r /\ (holding (g r) = true -> holding r = true)) ->
  sound (mkSys (updateRecord id g (store s)) (nonces s)).
Proof.
  intros Hs Hw Hg. destruct (TransactionDB.lookup id (store s)) as [r|] eqn:Hl.
  - destruct (updateRecord_insert id _ r Hl) as (i & Hi & Hpos). rewrite Hpos.
    destruct (Hg r eq_refl) as [Hn Hh]. pose proof Hs as [Hm Hout Honce].
    apply (sound_rewrite s i r); try done.
    + intros j rj n _ Hj. apply Hout. by eapply list_elem_of_lookup_2.
    + intros n Hh' Hn'. rewrite Hn in Hn'. split.
      * apply Hout; [by eapply list_elem_of_lookup_2 | by apply Hh | done].
      * intros j rj Hne Hj Hwj Hhj Hnj. apply Hne.
        apply (Honce j i rj r n); try done. by apply Hh.
  - assert (Hsame : updateRecord id g (store s) = store s).
    { clear -Hl. unfold TransactionDB.lookup in Hl.
      induction (store s) as [|r0 st IH]; simpl in *; [done|].
      destruct (String.eqb (queueId r0) id); [done|]. by rewrite IH. }
    rewrite Hsame. by destruct s.
Qed.


Lemma updateRecord_absent id g st :
  TransactionDB.lookup id st = None -> updateRecord id g st = st.
Proof.
  unfold TransactionDB.lookup.
  induction st as [|r0 st IH]; simpl; [done|].
  destruct (String.eqb (queueId r0) id); [done|]. intros Hl. by rewrite IH.
Qed.

Lemma exec_updateStatus id tr f st :
  exec (updateStatus id tr f) st =
  match TransactionDB.lookup id st with
  | Some r =>
      if legal tr.1 tr.2 && bool_decide (status r = tr.1)
      then updateRecord id (applyFields tr.2 f) st else st
  | None => st
  end.
Proof.
  unfold exec. rewrite updateStatus_unfold.
  destruct (TransactionDB.lookup id st) as [r|]; [|done].
  by destruct (legal _ _ && _).
Qed.

Lemma exec_keepQueued id f st :
  exec (keepQueued id f) st =
  match TransactionDB.lookup id st with
  | Some r =>
      if bool_decide (status r = queued)
      then updateRecord id (applyFields queued f) st else st
  | None => st
  end.
Proof.
  unfold exec, keepQueued, get, gets, modify, throw.
  unfold mbind, M_bind, Eff.bind, mret, M_ret, Eff.ret.
  destruct (TransactionDB.lookup id st) as [r|]; [|done].
  by destruct (bool_decide _).
Qed.

Lemma sys_eta (s : Sys) : mkSys (store s) (nonces s) = s.
Proof. by destruct s. Qed.

(** A status update that writes no nonce and does not lead back into a
    holding status. *)
Lemma sound_updateStatus_keep (s : Sys) id tr f :
  sound s -> set_nonce f = None ->
  (holdingStatus tr.2 = true -> holdingStatus tr.1 = true) ->
  sound (mkSys (exec (updateStatus id tr f) (store s)) (nonces s)).
Proof.
  intros Hs Hf Hh. rewrite exec_updateStatus.
  destruct (TransactionDB.lookup id (store s)) as [r|] eqn:Hl; [|by rewrite sys_eta].
  destruct (legal tr.1 tr.2); simpl; [|by rewrite sys_eta].
  case_bool_decide as Hst; [|by rewrite sys_eta].
  apply sound_update_keep; [done | done |].
  intros r0 Hr0. assert (r0 = r) as -> by congruence. split.
  - simpl. rewrite Hf. by destruct (nonce r).
  - unfold holding. simpl. rewrite Hst. done.
Qed.

Lemma sound_append (s : Sys) (r : TransactionRequest) :
  sound s -> nonce r = None -> sound (mkSys (store s ++ [r]) (nonces s)).
Proof.
  intros [Hm Hout Honce] Hn. split; cbn [store nonces].
  - done.
  - intros r0 n [Hin| ->%list_elem_of_singleton]%elem_of_app Hh Hn0.
    + by apply Hout.
    + congruence.
  - intros i j ri rj n Hi Hj Hw Hhi Hhj Hni Hnj.
    assert (Hold : forall k rk, (store s ++ [r]) !! k = Some rk -> nonce rk = Some n ->
                                 store s !! k = Some rk).
    { intros k rk Hk Hnk. apply lookup_app_Some in Hk as [Hk|[_ Hk]]; [done|].
      apply list_lookup_singleton_Some in Hk as [_ <-]. congruence. }
    apply (Honce i j ri rj n); auto.
Qed.

Lemma sound_reconcile (s : Sys) w observed :
  sound s -> sound (mkSys (store s) (reconcile w observed (nonces s))).
Proof.
  intros [Hm Hout Honce]. split; cbn [store nonces].
  - by apply managed_reconcile.
  - intros r n Hin Hh Hn. destruct (Hout r n Hin Hh Hn) as [Hr Hl].
    destruct (reconcile_wallets w observed (nonces s) (walletOf r)) as (Hle & -> & _).
    split; [done | lia].
  - done.
Qed.

Lemma sound_enqueue (s : Sys) cfg valid now call key feeOverride :
  sound s ->
  sound (mkSys (exec (enqueue cfg valid now call key feeOverride) (store s)) (nonces s)).
Proof.
  intros Hs. unfold exec, enqueue.
  destruct (valid call); simpl; [|by rewrite sys_eta].
  rewrite EnqueueSpec.insert_unfold.
  destruct (find _ (store s)); simpl; [by rewrite sys_eta|].
  by apply sound_append.
Qed.


(** The nonce the Submission Worker uses for the record at position
    [i]: it is outstanding afterwards, and no other holding record of
    the wallet has it. *)
Lemma submit_nonce_facts (s : Sys) (i : nat) (r : TransactionRequest) :
  sound s -> store s !! i = Some r -> holding r = true ->
  forall n nm1,
    match nonce r with
    | Some n => (n, nonces s)
    | None => nextNonce (walletOf r) (nonces s)
    end = (n, nm1) ->
    managed nm1
    /\ (forall rj m, rj ∈ store s -> holding rj = true -> nonce rj = Some m ->
          (m ∉ released (walletState (walletOf rj) nm1))
          /\ m <= lastAssigned (walletState (walletOf rj) nm1))
    /\ ((n ∉ released (walletState (walletOf r) nm1))
        /\ n <= lastAssigned (walletState (walletOf r) nm1))
    /\ (forall j rj, j <> i -> store s !! j = Some rj ->
          walletOf rj = walletOf r -> holding rj = true -> nonce rj <> Some n)
    /\ (nonce r = None \/ nonce r = Some n).
Proof.
  intros [Hm Hout Honce] Hi Hh n nm1 Hpair.
  assert (Hin : r ∈ store s) by (by eapply list_elem_of_lookup_2).
  destruct (nonce r) as [n0|] eqn:Hn.
  - injection Hpair as <- <-. split; [done|]. split; [done|].
    split; [by apply Hout|]. split; [|by right].
    intros j rj Hne Hj Hw Hhj Hnj. apply Hne. by apply (Honce j i rj r n0).
  - pose proof (managed_nextNonce (walletOf r) (nonces s) Hm) as Hm1.
    pose proof (nextNonce_wallets (walletOf r) (nonces s)) as Hws.
    rewrite Hpair in Hm1, Hws. simpl in Hm1.
    assert (Hother : forall w', w' <> walletOf r ->
              walletState w' nm1 = walletState w' (nonces s)).
    { intros w'. by destruct (Hws w') as (_ & ? & _). }
    destruct (Hws (walletOf r)) as (_ & _ & Hcase). clear Hws.
    pose proof (released_nodup _ Hm (walletOf r)) as Hnd.
    pose proof (released_below _ Hm (walletOf r)) as Hrb.
    split; [done|]. split; [|split; [|split; [|by left]]].
    + intros rj m Hinj Hhj Hnj. destruct (Hout rj m Hinj Hhj Hnj) as [Hr Hl].
      destruct (decide (walletOf rj = walletOf r)) as [Hw|Hw].
      * rewrite Hw in *. destruct Hcase as [[Hrel ->]|(_ & -> & -> & ->)].
        -- split; [|done]. intros Hc. apply Hr. rewrite Hrel. by right.
        -- split; [apply not_elem_of_nil | lia].
      * by rewrite Hother.
    + destruct Hcase as [[Hrel ->]|(_ & -> & -> & ->)].
      * rewrite Hrel in Hnd, Hrb. apply NoDup_cons in Hnd as [Hnotin _].
        split; [done|]. apply Hrb. by left.
      * split; [apply not_elem_of_nil | lia].
    + intros j rj Hne Hj Hw Hhj Hnj.
      assert (Hinj : rj ∈ store s) by (by eapply list_elem_of_lookup_2).
      destruct (Hout rj n Hinj Hhj Hnj) as [Hr Hl]. rewrite Hw in *.
      destruct Hcase as [[Hrel _]|(_ & _ & -> & _)].
      * apply Hr. rewrite Hrel. by left.
      * lia.
Qed.

Lemma nonce_applyFields next f r :
  nonce (applyFields next f r)
  = match nonce r with Some n => Some n | None => set_nonce f end.
Proof. done. Qed.

Lemma sound_submit cfg now id estimate outcome (s : Sys) :
  sound s -> sound (submit cfg now id estimate outcome s).
Proof.
  intros Hs. unfold submit.
  destruct (TransactionDB.lookup id (store s)) as [r|] eqn:Hl; [|done].
  case_bool_decide as Hq; [|done].
  assert (Hh : holding r = true) by (unfold holding; by rewrite Hq).
  destruct (match nonce r with
            | Some n => (n, nonces s)
            | None => nextNonce (walletOf r) (nonces s)
            end) as [n nm1] eqn:Hpair.
  destruct (updateRecord_insert id _ r Hl) as (i & Hi & Hpos).
  destruct (submit_nonce_facts s i r Hs Hi Hh n nm1 Hpair)
    as (Hm1 & Hothers & Hn & Hdiff & Hcase).
  assert (Hkeep : forall next f, set_nonce f = Some n ->
            sound (mkSys (<[i := applyFields next f r]> (store s)) nm1)).
  { intros next f Hf. apply (sound_rewrite s i r); try done.
    - intros j rj m _ Hj. apply Hothers. by eapply list_elem_of_lookup_2.
    - intros m _ Hm'. rewrite nonce_applyFields, Hf in Hm'.
      assert (m = n) as -> by (destruct Hcase as [Hc|Hc]; rewrite Hc in Hm'; congruence).
      done. }
  destruct outcome as [txHash|reason|].
  - rewrite exec_updateStatus, Hl, Hq. simpl. rewrite Hpos. by apply Hkeep.
  - rewrite exec_updateStatus, Hl, Hq. simpl. rewrite Hpos.
    apply (sound_rewrite s i r); try done.
    + by apply managed_release.
    + intros j rj m Hne Hj Hhj Hnj.
      destruct (Hothers rj m) as [Hr Hle]; [by eapply list_elem_of_lookup_2 | done | done |].
      destruct (release_wallets (walletOf r) n nm1 (walletOf rj)) as [-> Hrel].
      split; [|done]. intros [Hc|[Hw ->]]%Hrel; [done|].
      by apply (Hdiff j rj).
  - case_bool_decide.
    + rewrite exec_updateStatus, Hl, Hq. simpl. rewrite Hpos. by apply Hkeep.
    + rewrite exec_keepQueued, Hl, Hq. simpl. rewrite Hpos. by apply Hkeep.
Qed.


Lemma sound_retryTick cfg now id estimate txHash (s : Sys) :
  sound s -> sound (mkSys (retryTick cfg now id estimate txHash (store s)) (nonces s)).
Proof.
  intros Hs. unfold retryTick.
  destruct (TransactionDB.lookup id (store s)); [|by rewrite sys_eta].
  destruct (_ && _); [|by rewrite sys_eta].
  case_bool_decide; by apply sound_updateStatus_keep.
Qed.

Lemma sound_step cfg valid e (s : Sys) : sound s -> sound (step cfg valid e s).
Proof.
  intros Hs. destruct e as [now call key fo|now id est outcome|now id est h
                            |now id block success|id|id|w observed]; simpl.
  - by apply sound_enqueue.
  - by apply sound_submit.
  - by apply sound_retryTick.
  - unfold confirm. destruct success; by apply sound_updateStatus_keep.
  - unfold reorg. by apply sound_updateStatus_keep.
  - unfold markCancelled. by apply sound_updateStatus_keep.
  - by apply sound_reconcile.
Qed.

Lemma sound_run cfg valid events (s : Sys) : sound s -> sound (run cfg valid events s).
Proof.
  revert s. induction events as [|e events IH]; intros s Hs; [done|].
  apply IH. by apply sound_step.
Qed.

Lemma releaseCount_app h1 h2 :
  releaseCount (h1 ++ h2) = (releaseCount h1 + releaseCount h2)%nat.
Proof. unfold releaseCount. by rewrite List.filter_app, length_app. Qed.

Lemma releaseCount_nextNonce w s :
  releaseCount (history (nextNonce w s).2) = releaseCount (history s).
Proof.
  pose proof (nextNonce_wallets w s w) as Hw.
  destruct (nextNonce w s) as [n s']. destruct Hw as [Hh _]. cbn [snd].
  rewrite Hh, releaseCount_app. unfold releaseCount at 2. simpl. lia.
Qed.

Lemma releaseCount_release w n s :
  (releaseCount (history (release w n s)) <= S (releaseCount (history s)))%nat.
Proof.
  rewrite release_unfold. destruct (_ || _); [lia|]. simpl.
  rewrite releaseCount_app. unfold releaseCount at 2. simpl. lia.
Qed.

Lemma releaseCount_step cfg valid e (s : Sys) :
  (releaseCount (history (nonces (step cfg valid e s)))
   <= releaseCount (history (nonces s)) + (if isRejection e then 1 else 0))%nat.
Proof.
  destruct e as [now call key fo|now id est outcome|now id est h
                 |now id block success|id|id|w observed]; simpl; try lia.
  - unfold submit.
    destruct (TransactionDB.lookup id (store s)) as [r|]; [|destruct outcome; lia].
    case_bool_decide; [|destruct outcome; lia].
    assert (Hnm : releaseCount (history
              (match nonce r with
               | Some n => (n, nonces s)
               | None => nextNonce (walletOf r) (nonces s)
               end).2) = releaseCount (history (nonces s))).
    { destruct (nonce r); [done | apply releaseCount_nextNonce]. }
    destruct (match nonce r with
              | Some n => (n, nonces s)
              | None => nextNonce (walletOf r) (nonces s)
              end) as [n nm1]. simpl in Hnm.
    destruct outcome as [txHash|reason|]; simpl.
    + lia.
    + pose proof (releaseCount_release (walletOf r) n nm1). lia.
    + case_bool_decide; simpl; lia.
Qed.

Lemma releaseCount_run cfg valid events (s : Sys) :
  (releaseCount (history (nonces (run cfg valid events s)))
   <= releaseCount (history (nonces s)) + rejections events)%nat.
Proof.
  revert s. induction events as [|e events IH]; intros s; simpl; [unfold rejections; simpl; lia|].
  specialize (IH (step cfg valid e s)).
  pose proof (releaseCount_step cfg valid e s).
  unfold rejections in *. simpl. destruct (isRejection e); simpl; lia.
Qed.

Lemma terminal_holding (r : TransactionRequest) :
  terminal (status r) = false -> holding r = true.
Proof. unfold holding. by destruct (status r). Qed.

(** C1: after any sequence of engine events from the initial state, two
    stored records of one (chainId, from) that are both non-terminal
    never hold the same nonce; every nonce handed out is above all
    nonces handed out before for that sender, unless it is the reuse of
    a nonce released since its last assignment; and there are no more
    releases than rejected submissions. *)
Theorem nonce_discipline (cfg : Config) (valid : PreparedCall -> bool)
    (events : list Event) :
  let s := run cfg valid events Workers.init in
  (forall i j ri rj n,
     store s !! i = Some ri -> store s !! j = Some rj ->
     chainId ri = chainId rj -> from ri = from rj ->
     nonce ri = Some n -> nonce rj = Some n ->
     terminal (status ri) = false -> terminal (status rj) = false ->
     i = j)
  /\ orderly (history (nonces s))
  /\ (releaseCount (history (nonces s)) <= rejections events)%nat.
Proof.
  cbv zeta. pose proof (sound_run cfg valid events Workers.init sound_init) as Hs.
  split; [|split].
  - intros i j ri rj n Hi Hj Hc Hf Hni Hnj Hti Htj.
    apply (held_once _ Hs i j ri rj n); try done.
    + unfold walletOf. by rewrite Hc, Hf.
    + by apply terminal_holding.
    + by apply terminal_holding.
  - apply history_orderly, Hs.
  - pose proof (releaseCount_run cfg valid events Workers.init) as Hr.
    change (releaseCount (history (nonces Workers.init))) with 0%nat in Hr. lia.
Qed.

End NonceSpec.

(** ** The theorems at sample inputs *)
Module Witnesses.
Import Samples.

(** C9 at sample inputs. *)
Lemma getTransactionLogs_by_queueId_witness :
  (GetLogs.getTransactionLogs (H := logsSdk) logsQuery [minedRecord]).1
    = [minedRecord]
  /\ (forall reply,
        (GetLogs.getTransactionLogs (H := logsSdk) logsQuery [minedRecord]).2
          = Ok reply ->
        exists r, r ∈ [minedRecord] /\ queueId r = "q1" /\ status r = mined)
  /\ ((forall r, r ∈ [minedRecord] -> queueId r = "q1" -> status r <> mined) ->
        (GetLogs.getTransactionLogs (H := logsSdk) logsQuery [minedRecord]).2
          = Throw GetLogs.notMined
        /\ statusCode GetLogs.notMined = StatusCodes.BAD_REQUEST
        /\ isClientError GetLogs.notMined = true).
Proof.
  apply (GetLogsSpec.getTransactionLogs_by_queueId (H := logsSdk)
           logsQuery [minedRecord] 137 (mkChain 137 "https://rpc") "q1");
    [reflexivity | reflexivity | reflexivity | discriminate].
Defined.

(** C10 at sample inputs. *)
Lemma getSmartWalletV5_second_call_hits_witness :
  SmartWallet.getSmartWalletV5 (H := walletSdk) secondCall
    (SmartWallet.getSmartWalletV5 (H := walletSdk) firstCall ∅).1
  = ((SmartWallet.getSmartWalletV5 (H := walletSdk) firstCall ∅).1, Ok "0xA@0xF1").
Proof.
  apply (SmartWalletSpec.getSmartWalletV5_second_call_hits (H := walletSdk)
           firstCall secondCall ∅);
    reflexivity.
Defined.

(** C8 at sample inputs. *)
Lemma sendTransactionBatch_in_order_witness :
  exists ids news,
    (SendTransactionBatch.sendTransactionBatch (H := batchHelpers) cfg 0
       "polygon" "0xA" None batch [queuedRecord]).1 = [queuedRecord] ++ news
    /\ length ids
       = length (SendTransactionBatch.acceptedPrefix (H := batchHelpers) 137 "0xA" batch)
    /\ Some <$> news
       = zip_with (SendTransactionBatch.recordFor (H := batchHelpers) 137 "0xA")
           (SendTransactionBatch.acceptedPrefix (H := batchHelpers) 137 "0xA" batch) ids
    /\ NoDup ids
    /\ (forall id, id ∈ ids -> id ∉ (queueId <$> [queuedRecord]))
    /\ (SendTransactionBatch.acceptedPrefix (H := batchHelpers) 137 "0xA" batch = batch ->
        (SendTransactionBatch.sendTransactionBatch (H := batchHelpers) cfg 0
           "polygon" "0xA" None batch [queuedRecord]).2
        = Ok (send StatusCodes.OK ids))
    /\ (SendTransactionBatch.acceptedPrefix (H := batchHelpers) 137 "0xA" batch <> batch ->
        exists e,
          (SendTransactionBatch.sendTransactionBatch (H := batchHelpers) cfg 0
             "polygon" "0xA" None batch [queuedRecord]).2 = Throw e).
Proof.
  apply (SendTransactionBatchSpec.sendTransactionBatch_in_order (H := batchHelpers)
           cfg 0 "polygon" "0xA" None batch [queuedRecord] 137).
  reflexivity.
Defined.


(** C4 at sample inputs. *)
Lemma manageChainIndexers_idempotent_witness :
  Indexers.consistent (Indexers.manageChainIndexers [1; 5] Indexers.empty)
  /\ dom (Indexers.INDEXER_REGISTRY (Indexers.manageChainIndexers [1; 5] Indexers.empty))
     = list_to_set [1; 5]
  /\ (forall c, c ∈ [1; 5] ->
        exists t,
          Indexers.INDEXER_REGISTRY
            (Indexers.manageChainIndexers [1; 5] Indexers.empty) !! c = Some t
          /\ Indexers.runningFor c (Indexers.manageChainIndexers [1; 5] Indexers.empty)
             = [t])
  /\ (forall c, c ∉ [1; 5] ->
        Indexers.INDEXER_REGISTRY
          (Indexers.manageChainIndexers [1; 5] Indexers.empty) !! c = None
        /\ Indexers.runningFor c (Indexers.manageChainIndexers [1; 5] Indexers.empty)
           = [])
  /\ Indexers.manageChainIndexers [1; 5]
       (Indexers.manageChainIndexers [1; 5] Indexers.empty)
     = Indexers.manageChainIndexers [1; 5] Indexers.empty.
Proof.
  apply (IndexersSpec.manageChainIndexers_idempotent [1; 5] Indexers.empty).
  apply IndexersSpec.consistent_empty.
Defined.

(** C5 at sample inputs. *)
Lemma markCancelled_only_queued_witness :
  ((TxStore.markCancelled "q0" [queuedRecord; submittedRecord]).2 = Ok ()
   <-> status queuedRecord = queued)
  /\ (status queuedRecord = queued ->
        TransactionDB.lookup "q0"
          (TxStore.markCancelled "q0" [queuedRecord; submittedRecord]).1
        = Some (TxStore.applyFields cancelled TxStore.noFields queuedRecord)
        /\ status (TxStore.applyFields cancelled TxStore.noFields queuedRecord) = cancelled
        /\ terminal cancelled = true
        /\ (forall id', id' <> "q0" ->
              TransactionDB.lookup id'
                (TxStore.markCancelled "q0" [queuedRecord; submittedRecord]).1
              = TransactionDB.lookup id' [queuedRecord; submittedRecord]))
  /\ (status queuedRecord <> queued ->
        TxStore.markCancelled "q0" [queuedRecord; submittedRecord]
        = ([queuedRecord; submittedRecord], Throw InvalidTransition)).
Proof.
  apply (TxStoreSpec.markCancelled_only_queued "q0"
           [queuedRecord; submittedRecord] queuedRecord).
  reflexivity.
Defined.

(** C3 at sample inputs. *)
Lemma enqueue_idempotent_witness :
  ((exists r, r ∈ [queuedRecord] /\ idempotencyKey r = Some "key-1"
              /\ TxStore.liveOrRecent cfg 10 r) ->
     (Workers.enqueue cfg (fun _ => true) 10 call (Some "key-1") None [queuedRecord]).1
       = [queuedRecord]
     /\ exists r, r ∈ [queuedRecord] /\ idempotencyKey r = Some "key-1"
                  /\ TxStore.liveOrRecent cfg 10 r
                  /\ (Workers.enqueue cfg (fun _ => true) 10 call (Some "key-1") None
                        [queuedRecord]).2 = Ok (queueId r))
  /\ (~ (exists r, r ∈ [queuedRecord] /\ idempotencyKey r = Some "key-1"
                   /\ TxStore.liveOrRecent cfg 10 r) ->
        exists id, (id ∉ queueId <$> [queuedRecord])
          /\ (Workers.enqueue cfg (fun _ => true) 10 call (Some "key-1") None
                [queuedRecord]).1
             = [queuedRecord] ++ [Workers.newRecord call (Some "key-1") None id]
          /\ (Workers.enqueue cfg (fun _ => true) 10 call (Some "key-1") None
                [queuedRecord]).2 = Ok id
          /\ status (Workers.newRecord call (Some "key-1") None id) = queued
          /\ queueId (Workers.newRecord call (Some "key-1") None id) = id).
Proof.
  apply (EnqueueSpec.enqueue_idempotent cfg (fun _ => true) 10 call "key-1" None
           [queuedRecord]).
  reflexivity.
Defined.


(** The sample run of the retry worker: two re-prices, then the timeout. *)
Example retry_run_times_out :
  Workers.escalations cfg "q2" visits [submittedRecord] = 2%nat
  /\ Workers.alwaysPressing cfg "q2" visits [submittedRecord] = true
  /\ (fun r => (status r, errorMessage r, retryCount r, fee r, transactionHash r))
       <$> Workers.retryLoop cfg "q2" visits [submittedRecord]
     = [(errored, Some "timeout", 2%nat, 15, Some "0xh3")].
Proof. vm_compute. done. Qed.

(** The sample batch: two records are created in order, then the third
    element throws and the two stay. *)
Example batch_run_is_not_atomic :
  SendTransactionBatch.sendTransactionBatch (H := batchHelpers) cfg 0
    "polygon" "0xA" None batch []
  = ([Workers.newRecord (Workers.mkCall 137 "0xA" (Some "0xB") "0x01" 10000000)
        None None "0";
      Workers.newRecord (Workers.mkCall 137 "0xA" None "0x02" 0) None None "1"],
     Throw SendTransactionBatch.SyntaxError).
Proof. vm_compute. done. Qed.

(** A queued record enqueued again under its key: the same id, no new
    record. *)
Example enqueue_twice_same_id :
  Workers.enqueue cfg (fun _ => true) 10 call (Some "key-1") None [queuedRecord]
  = ([queuedRecord], Ok "q0").
Proof. vm_compute. done. Qed.

End Witnesses.

(** * Further properties *)

(** ** Strings as lists of characters *)
Module StringFacts.

Lemma length_list_ascii (s : string) :
  length (String.list_ascii_of_string s) = String.length s.
Proof. induction s as [|c s IH]; simpl; by rewrite ?IH. Qed.

Lemma list_ascii_app (s1 s2 : string) :
  String.list_ascii_of_string (s1 +:+ s2)
  = String.list_ascii_of_string s1 ++ String.list_ascii_of_string s2.
Proof. induction s1 as [|c s1 IH]; simpl; by rewrite ?IH. Qed.

Lemma list_ascii_inj (s1 s2 : string) :
  String.list_ascii_of_string s1 = String.list_ascii_of_string s2 -> s1 = s2.
Proof.
  intros H. rewrite <- (String.string_of_list_ascii_of_string s1),
    <- (String.string_of_list_ascii_of_string s2). by rewrite H.
Qed.

End StringFacts.

(** ** The address schemas *)
Module AddressSchemasSpec.
Import AddressSchemas.

Lemma nullable_spec r : nullable r = true <-> matches r [].
Proof.
  induction r as [| |c|ranges|r1 IH1 r2 IH2|r1 IH1 r2 IH2|r IH]; simpl.
  - split; [done | inversion 1].
  - split; [constructor | done].
  - split; [done | inversion 1].
  - split; [done | inversion 1].
  - rewrite andb_true_iff, IH1, IH2. split.
    + intros [H1 H2]. change (@nil ascii) with (@nil ascii ++ []). by constructor.
    + inversion 1 as [| | |? ? s1 s2 H1 H2 [Hr1 Hr2] Hs| | | |]; subst.
      apply app_eq_nil in Hs as [-> ->]. done.
  - rewrite orb_true_iff, IH1, IH2. split.
    + intros [?|?]; [by apply MAltL | by apply MAltR].
    + inversion 1; subst; [by left | by right].
  - split; [constructor | done].
Qed.

(** A non-empty match of [r*] starts with a non-empty match of [r]. *)
Lemma star_cons r c s :
  matches (Star r) (c :: s) ->
  exists s1 s2, s = s1 ++ s2 /\ matches r (c :: s1) /\ matches (Star r) s2.
Proof.
  intros H. remember (Star r) as r' eqn:Hr'. remember (c :: s) as l eqn:Hl.
  revert s Hl. induction H as [| | | | | | |r0 s1 s2 H1 _ H2 IH2]; intros s0 Hl; try done.
  injection Hr' as ->. destruct s1 as [|c1 s1].
  - simpl in Hl. by apply IH2.
  - simpl in Hl. injection Hl as -> <-. by exists s1, s2.
Qed.

Lemma deriv_spec c r s : matches (deriv c r) s <-> matches r (c :: s).
Proof.
  revert s. induction r as [| |c'|ranges|r1 IH1 r2 IH2|r1 IH1 r2 IH2|r IH];
    intros s; simpl.
  - split; inversion 1.
  - split; inversion 1.
  - destruct (Ascii.eqb c c') eqn:He.
    + apply Ascii.eqb_eq in He as ->. split.
      * inversion 1; subst. constructor.
      * inversion 1; subst. constructor.
    + apply Ascii.eqb_neq in He. split; [inversion 1|].
      inversion 1; subst. done.
  - destruct (inClass ranges c) eqn:He.
    + split.
      * inversion 1; subst. by constructor.
      * inversion 1; subst. constructor.
    + split; [inversion 1|]. inversion 1; subst. congruence.
  - assert (Hseq : matches (Seq (deriv c r1) r2) s ->
                   matches (Seq r1 r2) (c :: s)).
    { inversion 1 as [| | |? ? s1 s2 H1 H2| | | |]; subst.
      change (c :: s1 ++ s2) with ((c :: s1) ++ s2). constructor; [by apply IH1 | done]. }
    assert (Hinv : matches (Seq r1 r2) (c :: s) ->
                   matches (Seq (deriv c r1) r2) s
                   \/ (matches r1 [] /\ matches r2 (c :: s))).
    { inversion 1 as [| | |? ? s1 s2 H1 H2 [Hr1 Hr2] Hs| | | |]; subst.
      destruct s1 as [|c1 s1]; simpl in Hs.
      - right. by subst.
      - injection Hs as -> <-. left. constructor; [by apply IH1 | done]. }
    destruct (nullable r1) eqn:Hn.
    + apply nullable_spec in Hn. split.
      * inversion 1; subst; [by apply Hseq|].
        change (c :: s) with ([] ++ c :: s). constructor; [done | by apply IH2].
      * intros [H|[_ H]]%Hinv; [by apply MAltL | apply MAltR; by apply IH2].
    + split; [done|]. intros [H|[H _]]%Hinv; [done|].
      apply nullable_spec in H. congruence.
  - split.
    + inversion 1; subst; [apply MAltL; by apply IH1 | apply MAltR; by apply IH2].
    + inversion 1; subst; [apply MAltL; by apply IH1 | apply MAltR; by apply IH2].
  - split.
    + inversion 1 as [| | |? ? s1 s2 H1 H2| | | |]; subst.
      change (c :: s1 ++ s2) with ((c :: s1) ++ s2). constructor; [by apply IH | done].
    + intros (s1 & s2 & -> & H1 & H2)%star_cons. constructor; [by apply IH | done].
Qed.

(** The matcher decides [matches]. *)
Lemma accepts_spec r s : accepts r s = true <-> matches r s.
Proof.
  revert r. induction s as [|c s IH]; intros r; simpl.
  - apply nullable_spec.
  - rewrite IH. apply deriv_spec.
Qed.


Lemma matches_class ranges s :
  matches (Class ranges) s <-> exists c, s = [c] /\ inClass ranges c = true.
Proof.
  split.
  - inversion 1; subst. eauto.
  - intros (c & -> & Hc). by constructor.
Qed.

Lemma matches_chr_seq c r s :
  matches (Seq (Chr c) r) s <-> exists t, s = c :: t /\ matches r t.
Proof.
  split.
  - inversion 1 as [| | |? ? s1 s2 H1 H2| | | |]; subst. inversion H1; subst. eauto.
  - intros (t & -> & Ht). change (c :: t) with ([c] ++ t). constructor; [constructor | done].
Qed.

Lemma matches_quantified_class ranges n s :
  matches (quantified (Class ranges) n) s
  <-> length s = n /\ Forall (fun c => inClass ranges c = true) s.
Proof.
  revert s. induction n as [|n IH]; intros s; simpl.
  - split.
    + inversion 1. done.
    + intros [->%nil_length_inv _]. constructor.
  - split.
    + inversion 1 as [| | |? ? s1 s2 H1 H2| | | |]; subst.
      apply matches_class in H1 as (c & -> & Hc). apply IH in H2 as [<- Hall].
      split; [done | by constructor].
    + intros [Hlen Hall]. destruct s as [|c s]; [done|].
      apply Forall_cons in Hall as [Hc Hall]. injection Hlen as Hlen.
      change (c :: s) with ([c] ++ s). constructor; [by constructor | by apply IH].
Qed.

Lemma matches_star_class ranges s :
  matches (Star (Class ranges)) s <-> Forall (fun c => inClass ranges c = true) s.
Proof.
  split.
  - intros H. remember (Star (Class ranges)) as r eqn:Hr.
    induction H as [| | | | | | |r0 s1 s2 H1 _ H2 IH2]; try done.
    injection Hr as ->. apply matches_class in H1 as (c & -> & Hc).
    constructor; [done | by apply IH2].
  - induction 1 as [|c s Hc _ IH]; [constructor|].
    change (c :: s) with ([c] ++ s). constructor; [by constructor | done].
Qed.

Lemma hexDigit_class (c : ascii) :
  inClass [("a"%char, "f"%char); ("A"%char, "F"%char); ("0"%char, "9"%char)] c = true
  <-> c ∈ hexDigits.
Proof.
  rewrite <- (bool_decide_spec (c ∈ hexDigits)).
  destruct c as [[] [] [] [] [] [] [] []]; vm_compute; by split.
Qed.

Lemma Forall_hexDigit (s : list ascii) :
  Forall (fun c =>
            inClass [("a"%char, "f"%char); ("A"%char, "F"%char); ("0"%char, "9"%char)] c
            = true) s
  <-> Forall (fun c => c ∈ hexDigits) s.
Proof. apply Forall_iff. intros c. apply hexDigit_class. Qed.

(** With both anchors, [test] asks for a match of the whole value. *)
Lemma test_anchored r value :
  test (mkPattern true r true) value
  = accepts r (String.list_ascii_of_string value).
Proof.
  unfold test. simpl. rewrite !orb_false_r, Nat.sub_0_r, take_ge by done. done.
Qed.

(** ["0x"] and exactly [n] hexadecimal digits. *)
Lemma hex_quantified_accepts (n : nat) (value : string) :
  test (mkPattern true (Seq (Chr "0") (Seq (Chr "x") (quantified hexDigit n))) true) value
    = true
  <-> exists digits, hexString value digits /\ length digits = n.
Proof.
  unfold hexString. rewrite test_anchored, accepts_spec.
  rewrite matches_chr_seq. split.
  - intros (t & Ht & (t' & -> & [Hlen Hall]%matches_quantified_class)%matches_chr_seq).
    apply Forall_hexDigit in Hall. by exists t'.
  - intros (digits & [Hv Hall] & Hlen). eexists. split; [done|].
    apply matches_chr_seq. eexists. split; [done|].
    apply matches_quantified_class. split; [done|]. by apply Forall_hexDigit.
Qed.

(** ["0x"] and any number of hexadecimal digits. *)
Lemma hex_star_accepts (value : string) :
  test (mkPattern true (Seq (Chr "0") (Seq (Chr "x") (Star hexDigit))) true) value = true
  <-> exists digits, hexString value digits.
Proof.
  unfold hexString. rewrite test_anchored, accepts_spec.
  rewrite matches_chr_seq. split.
  - intros (t & Ht & (t' & -> & Hall%matches_star_class)%matches_chr_seq).
    apply Forall_hexDigit in Hall. by exists t'.
  - intros (digits & [Hv Hall]). eexists. split; [done|].
    apply matches_chr_seq. eexists. split; [done|].
    apply matches_star_class. by apply Forall_hexDigit.
Qed.

Lemma hex_quantified_length (n : nat) (value : string) :
  test (mkPattern true (Seq (Chr "0") (Seq (Chr "x") (quantified hexDigit n))) true) value
    = true ->
  test HexSchema value = true /\ String.length value = (2 + n)%nat.
Proof.
  intros (digits & [Hv Hall] & Hlen)%hex_quantified_accepts. split.
  - apply hex_star_accepts. by exists digits.
  - rewrite <- StringFacts.length_list_ascii, Hv. simpl. by rewrite Hlen.
Qed.

(** X1: [AddressSchema] accepts exactly the values made of "0x" and 40
    hexadecimal digits of either case. *)
Theorem AddressSchema_accepts (value : string) :
  test AddressSchema value = true
  <-> exists digits, hexString value digits /\ length digits = 40%nat.
Proof. apply hex_quantified_accepts. Qed.

(** X2: [TransactionHashSchema] accepts exactly the values made of "0x"
    and 64 hexadecimal digits of either case. *)
Theorem TransactionHashSchema_accepts (value : string) :
  test TransactionHashSchema value = true
  <-> exists digits, hexString value digits /\ length digits = 64%nat.
Proof. apply hex_quantified_accepts. Qed.

(** X3: [HexSchema] accepts exactly the values made of "0x" and any
    number of hexadecimal digits: none, or an odd number, will do. *)
Theorem HexSchema_accepts (value : string) :
  test HexSchema value = true <-> exists digits, hexString value digits.
Proof. apply hex_star_accepts. Qed.

(** X4: every address and every transaction hash is a valid hex string,
    of 42 and of 66 characters, so no value is both. *)
Theorem address_and_hash_are_hex (value : string) :
  (test AddressSchema value = true ->
     test HexSchema value = true /\ String.length value = 42%nat)
  /\ (test TransactionHashSchema value = true ->
       test HexSchema value = true /\ String.length value = 66%nat)
  /\ ~ (test AddressSchema value = true /\ test TransactionHashSchema value = true).
Proof.
  pose proof (hex_quantified_length 40 value) as Ha.
  pose proof (hex_quantified_length 64 value) as Hh.
  split; [exact Ha|]. split; [exact Hh|].
  intros [[_ H1]%Ha [_ H2]%Hh]. simpl in *. congruence.
Qed.

End AddressSchemasSpec.

(** ** The smart-wallet cache over many calls *)
Module SmartWalletCacheSpec.
Import SmartWallet SmartWalletCalls AddressSchemas.

Lemma address_length (a : string) :
  test AddressSchema a = true -> length (String.list_ascii_of_string a) = 42%nat.
Proof.
  intros Ha. rewrite StringFacts.length_list_ascii.
  by apply (AddressSchemasSpec.hex_quantified_length 40).
Qed.

(** X5: for well-formed account and sender addresses the cache key tells
    the triples (chain id, account address, sender) apart: two calls
    share a key only if they agree on all three. *)
Theorem cacheKey_injective (p q : SmartWalletParams) :
  test AddressSchema (accountAddress p) = true ->
  test AddressSchema (sw_from p) = true ->
  test AddressSchema (accountAddress q) = true ->
  test AddressSchema (sw_from q) = true ->
  cacheKey p = cacheKey q ->
  chain_id (chain p) = chain_id (chain q)
  /\ accountAddress p = accountAddress q
  /\ sw_from p = sw_from q.
Proof.
  intros Hap%address_length Hfp%address_length Haq%address_length Hfq%address_length Hk.
  apply (f_equal String.list_ascii_of_string) in Hk. unfold cacheKey in Hk.
  rewrite !StringFacts.list_ascii_app in Hk. rewrite !app_assoc in Hk.
  apply app_inj_2 in Hk as [Hk Hf]; [|congruence].
  simpl in Hk. apply app_inj_tail in Hk as [Hk _].
  apply app_inj_2 in Hk as [Hk Ha]; [|congruence].
  apply app_inj_tail in Hk as [Hk _].
  apply StringFacts.list_ascii_inj in Hk, Ha, Hf.
  by apply (inj pretty) in Hk.
Qed.

(** Without that, keys collide: the separator may occur in the parts. *)
Lemma cacheKey_collision :
  cacheKey (mkParams (mkChain 1 "") "a-b" "c" None)
  = cacheKey (mkParams (mkChain 1 "") "a" "b-c" None).
Proof. reflexivity. Qed.

Section cache.
Context `{WalletSdk}.





End cache.
End SmartWalletCacheSpec.

(** ** The paths of the logs route *)
Module GetLogsPathsSpec.
Import GetLogs.

Ltac run_handler :=
  unfold getTransactionLogs, TransactionDB.get, await, gets, throw;
  unfold mbind, M_bind, Eff.bind, mret, M_ret, Eff.ret.

Section paths.
Context `{Sdk}.

(** X8: a queue id takes precedence: with a non-empty queue id the
    transaction hash of the request has no effect on the answer. *)
Theorem queueId_takes_precedence (query : Querystring) (hash : option string) (st : Store) :
  truthy (q_queueId query) = true ->
  getTransactionLogs
    (mkQuery (chain query) (q_queueId query) hash (parseLogs query)) st
  = getTransactionLogs query st.
Proof.
  intros Hq. run_handler. simpl. rewrite Hq. simpl. done.
Qed.

(** X9: without a queue id the transaction table is not consulted: the
    answer is the same whatever the table holds. *)
Theorem without_queueId_table_is_ignored (query : Querystring) (st st' : Store) :
  truthy (q_queueId query) = false ->
  (getTransactionLogs query st).2 = (getTransactionLogs query st').2.
Proof.
  intros Hq. run_handler. rewrite Hq.
  destruct (getChainIdFromChain (chain query)) as [c|e]; simpl; [|done].
  destruct (getChain c) as [ch|e]; simpl; [|done].
  destruct (truthy (q_transactionHash query)) eqn:Hh; simpl; [|done].
  rewrite Hh. simpl.
  destruct (eth_getTransactionReceipt ch _) as [rc|e]; simpl; [|done].
  destruct (negb (default true (parseLogs query))); simpl; [done|].
  destruct (receipt_to rc) as [t|]; simpl; [|done].
  destruct (negb (String.eqb t "")); simpl; [|done].
  destruct (eventSignaturePromises ch _) as [sigs|e]; simpl; [|done].
  by destruct (bool_decide _).
Qed.

Lemma eventSignaturePromises_resolves (ch : Chain) (addresses : list string) :
  (forall a, exists abi, resolveContractAbi ch a = Ok abi) ->
  exists sigs, eventSignaturePromises ch addresses = Ok sigs
    /\ forall a abi, a ∈ addresses -> resolveContractAbi ch a = Ok abi ->
          filter (fun item => type item = "event") abi ∈ sigs.
Proof.
  intros Hall. induction addresses as [|a addresses IH]; simpl.
  - exists []. split; [done|]. by intros a abi ?%elem_of_nil.
  - destruct (Hall a) as [abi Habi]. rewrite Habi.
    destruct IH as (sigs & -> & Hin). eexists. split; [done|].
    intros a' abi' [->|Ha']%elem_of_cons Hres.
    + assert (abi' = abi) as -> by congruence. by left.
    + right. by eapply Hin.
Qed.

(** X10: when the chain resolves and every contract ABI resolves, every
    failure of the request is a 400 with one of the handler's four
    codes. *)
Theorem failures_are_bad_requests (query : Querystring) (st : Store)
    (c : Z) (ch : Chain) (e : CustomError) :
  getChainIdFromChain (chain query) = Ok c ->
  getChain c = Ok ch ->
  (forall a, exists abi, resolveContractAbi ch a = Ok abi) ->
  (getTransactionLogs query st).2 = Throw e ->
  statusCode e = StatusCodes.BAD_REQUEST /\ code e ∈ GetLogsErrors.handlerCodes.
Proof.
  intros Hc Hch Habi. run_handler. rewrite Hc, Hch. simpl.
  assert (Hcodes : forall m k, bool_decide (k ∈ GetLogsErrors.handlerCodes) = true ->
            (Throw (createCustomError m StatusCodes.BAD_REQUEST k)
               : result CustomError (Reply (list LogJson))) = Throw e ->
            statusCode e = StatusCodes.BAD_REQUEST /\ code e ∈ GetLogsErrors.handlerCodes).
  { intros m k Hk%bool_decide_eq_true_1 [= <-]. done. }
  destruct (negb (truthy (q_queueId query)) && negb (truthy (q_transactionHash query)));
    simpl; [by apply Hcodes|].
  destruct (truthy (q_queueId query)).
  - destruct (TransactionDB.lookup _ st) as [r|].
    + destruct (decide (status r = mined)).
      * generalize (transactionHash r). intros hash. cbn beta iota.
        unfold throw.
        destruct (negb (truthy hash)); simpl; [by apply Hcodes|].
        destruct (eth_getTransactionReceipt ch _) as [rc|e']; simpl; [|by apply Hcodes].
        destruct (negb (default true (parseLogs query))); simpl; [done|].
        destruct (receipt_to rc) as [t|]; simpl; [|by apply Hcodes].
        destruct (negb (String.eqb t "")); simpl; [|by apply Hcodes].
        match goal with
        | |- context [eventSignaturePromises ch ?l] =>
            destruct (eventSignaturePromises_resolves ch l Habi) as (sigs & -> & _)
        end.
        simpl. destruct (bool_decide _); simpl; [by apply Hcodes | done].
      * simpl. by apply Hcodes.
    + simpl. by apply Hcodes.
  - destruct (truthy (q_transactionHash query)) eqn:Ht; simpl; [|by apply Hcodes].
    generalize (q_transactionHash query) Ht. intros hash Hhash. rewrite Hhash. simpl.
    destruct (eth_getTransactionReceipt ch _) as [rc|e']; simpl; [|by apply Hcodes].
    destruct (negb (default true (parseLogs query))); simpl; [done|].
    destruct (receipt_to rc) as [t|]; simpl; [|by apply Hcodes].
    destruct (negb (String.eqb t "")); simpl; [|by apply Hcodes].
    match goal with
    | |- context [eventSignaturePromises ch ?l] =>
        destruct (eventSignaturePromises_resolves ch l Habi) as (sigs & -> & _)
    end.
    simpl. destruct (bool_decide _); simpl; [by apply Hcodes | done].
Qed.

(** X11: by transaction hash alone, once the receipt is there: with
    [parseLogs] false the raw logs of the receipt are returned, also for
    a receipt without target; by default such a receipt is refused with
    TRANSACTION_LOGS_UNAVAILABLE. *)
Theorem raw_logs_need_no_target (query : Querystring) (st : Store)
    (c : Z) (ch : Chain) (h : string) (rc : TransactionReceipt) :
  getChainIdFromChain (chain query) = Ok c ->
  getChain c = Ok ch ->
  truthy (q_queueId query) = false ->
  q_transactionHash query = Some h -> h <> "" ->
  eth_getTransactionReceipt ch h = Ok rc ->
  (parseLogs query = Some false ->
     getTransactionLogs query st
     = (st, Ok (send StatusCodes.OK (serializeLogs (logs rc)))))
  /\ (default true (parseLogs query) = true -> receipt_to rc = None ->
       getTransactionLogs query st = (st, Throw GetLogsErrors.logsUnavailable)).
Proof.
  intros Hc Hch Hq Hh Hne Hrc.
  assert (Ht : truthy (q_transactionHash query) = true).
  { rewrite Hh. simpl. apply negb_true_iff. by apply String.eqb_neq. }
  split.
  - intros Hp. run_handler. rewrite Hc, Hch, Hq, Ht, Hp. simpl.
    rewrite Ht, Hh. simpl. by rewrite Hrc.
  - intros Hp Hto. run_handler. rewrite Hc, Hch, Hq, Ht, Hp. simpl.
    rewrite Ht, Hh. simpl. by rewrite Hrc, Hto.
Qed.

Lemma elem_of_Set_add (x a : string) (acc : list string) :
  a ∈ Set_add x acc <-> a = x \/ a ∈ acc.
Proof.
  unfold Set_add. case_bool_decide as Hx.
  - split; [by right|]. by intros [->|?].
  - rewrite elem_of_app, list_elem_of_singleton. tauto.
Qed.

(** The set [contracts] holds what it started with and the non-empty
    addresses of the logs. *)
Lemma contracts_spec (init : list string) (logs : list Log) (a : string) :
  a ∈ foldl (fun acc log =>
               if truthy (Some (address log))
               then Set_add (address log) acc else acc) init logs
  <-> a ∈ init \/ exists log, log ∈ logs /\ address log = a /\ a <> "".
Proof.
  revert init. induction logs as [|l logs IH]; intros init; simpl.
  - split; [by left|]. intros [?|(log & ?%elem_of_nil & _)]; done.
  - rewrite IH. destruct (String.eqb (address l) "") eqn:He; simpl.
    + apply String.eqb_eq in He. split.
      * intros [?|(log & Hin & Ha & Hne)]; [by left|].
        right. exists log. split; [by right | done].
      * intros [?|(log & [->|Hin]%elem_of_cons & Ha & Hne)]; [by left | congruence |].
        right. by exists log.
    + apply String.eqb_neq in He. rewrite elem_of_Set_add. split.
      * intros [[->|?]|(log & Hin & Ha & Hne)].
        -- right. exists l. split; [by left | done].
        -- by left.
        -- right. exists log. split; [by right | done].
      * intros [?|(log & [->|Hin]%elem_of_cons & Ha & Hne)].
        -- left. by right.
        -- left. by left.
        -- right. by exists log.
Qed.

(** What [Promise.all] resolves to: the event items of the ABI of each
    address. *)
Lemma eventSignaturePromises_events (ch : Chain) (addresses : list string)
    (sigs : list (list AbiItem)) (item : AbiItem) :
  eventSignaturePromises ch addresses = Ok sigs ->
  item ∈ concat sigs
  <-> exists a abi, a ∈ addresses /\ resolveContractAbi ch a = Ok abi
        /\ item ∈ abi /\ type item = "event".
Proof.
  revert sigs. induction addresses as [|a addresses IH]; intros sigs; simpl.
  - intros [= <-]. simpl. split; [by intros ?%elem_of_nil|].
    by intros (a & abi & ?%elem_of_nil & _).
  - destruct (resolveContractAbi ch a) as [abi|e] eqn:Habi; [|done].
    destruct (eventSignaturePromises ch addresses) as [rest|e]; [|done].
    intros [= <-]. simpl. rewrite elem_of_app, list_elem_of_filter, (IH rest eq_refl).
    split.
    + intros [[Hty Hin]|(a' & abi' & Hin & Hres & Hitem & Hty)].
      * exists a, abi. split; [by left | done].
      * exists a', abi'. split; [by right | done].
    + intros (a' & abi' & [->|Hin]%elem_of_cons & Hres & Hitem & Hty).
      * left. assert (abi' = abi) as -> by congruence. done.
      * right. by exists a', abi'.
Qed.

(** X12: by transaction hash alone, in parsing mode: when every ABI
    resolves and the ABI of the receipt's target has an event, the
    request succeeds with the logs of the receipt parsed, and they are
    parsed against the events of the contracts involved: the event
    items of the ABIs of the target and of every non-empty log address,
    and nothing else. *)
Theorem parsed_logs_when_target_has_events (query : Querystring) (st : Store)
    (c : Z) (ch : Chain) (h t : string) (rc : TransactionReceipt)
    (abi : list AbiItem) (item : AbiItem) :
  getChainIdFromChain (chain query) = Ok c ->
  getChain c = Ok ch ->
  truthy (q_queueId query) = false ->
  q_transactionHash query = Some h -> h <> "" ->
  default true (parseLogs query) = true ->
  eth_getTransactionReceipt ch h = Ok rc ->
  receipt_to rc = Some t -> t <> "" ->
  (forall a, exists abi, resolveContractAbi ch a = Ok abi) ->
  resolveContractAbi ch t = Ok abi -> item ∈ abi -> type item = "event" ->
  exists signatures,
    getTransactionLogs query st
    = (st, Ok (send StatusCodes.OK
                 (serializeParsedLogs
                    (parseEventLogs (prepareEvent <$> signatures) (logs rc)))))
    /\ forall sig, sig ∈ signatures
         <-> exists a abi',
               (a = t \/ exists log, log ∈ logs rc /\ address log = a /\ a <> "")
               /\ resolveContractAbi ch a = Ok abi'
               /\ sig ∈ abi' /\ type sig = "event".
Proof.
  intros Hc Hch Hq Hh Hne Hp Hrc Hto Htne Hall Habi Hitem Htype.
  assert (Ht : truthy (q_transactionHash query) = true).
  { rewrite Hh. simpl. apply negb_true_iff. by apply String.eqb_neq. }
  assert (Htt : negb (String.eqb t "") = true).
  { apply negb_true_iff. by apply String.eqb_neq. }
  run_handler. rewrite Hc, Hch, Hq, Ht, Hp. simpl.
  rewrite Ht, Hh. simpl. rewrite Hrc, Hto. simpl. rewrite Htt. simpl.
  match goal with
  | |- context [eventSignaturePromises ch ?l] =>
      destruct (eventSignaturePromises_resolves ch l Hall) as (sigs & Hsigs & _);
      pose proof (fun a => contracts_spec (Set_add t []) (logs rc) a) as Hcontracts;
      pose proof (fun sig => eventSignaturePromises_events ch l sigs sig Hsigs) as Hevents;
      rewrite Hsigs
  end.
  simpl.
  assert (Hmem : forall sig, sig ∈ concat sigs
            <-> exists a abi',
                  (a = t \/ exists log, log ∈ logs rc /\ address log = a /\ a <> "")
                  /\ resolveContractAbi ch a = Ok abi'
                  /\ sig ∈ abi' /\ type sig = "event").
  { intros sig. rewrite Hevents. split.
    - intros (a & abi' & [Ha|Ha]%Hcontracts & Hrest); exists a, abi'.
      + split; [|done]. left. apply elem_of_Set_add in Ha as [->|?%elem_of_nil]; done.
      + split; [by right | done].
    - intros (a & abi' & [Ha|Ha] & Hrest); exists a, abi'.
      + split; [|done]. apply Hcontracts. left. apply elem_of_Set_add. by left.
      + split; [|done]. apply Hcontracts. by right. }
  assert (Hnonempty : length (concat sigs) <> 0%nat).
  { assert (Hi : item ∈ concat sigs).
    { apply Hmem. exists t, abi. split; [by left | done]. }
    destruct (concat sigs); [by apply elem_of_nil in Hi | done]. }
  rewrite bool_decide_eq_false_2 by done. by exists (concat sigs).
Qed.

End paths.
End GetLogsPathsSpec.

(** ** The status route by query string *)
Module StatusQueryRouteSpec.
Import StatusRoute.


End StatusQueryRouteSpec.

(** ** Batches of batches *)
Module BatchCompositionSpec.
Import SendTransactionBatch.

Lemma forOf_app {S E A B} (body : A -> M S E B) (xs ys : list A) (s : S) :
  forOf body (xs ++ ys) s
  = match forOf body xs s with
    | (s1, Ok bs) =>
        match forOf body ys s1 with
        | (s2, Ok cs) => (s2, Ok (bs ++ cs))
        | (s2, Throw e) => (s2, Throw e)
        end
    | (s1, Throw e) => (s1, Throw e)
    end.
Proof.
  revert s. induction xs as [|x xs IH]; intros s; simpl.
  - unfold Eff.ret. by destruct (forOf body ys s) as [s2 [cs|e]].
  - unfold Eff.bind at 1 3. destruct (body x s) as [s' [b|e]]; [|done].
    unfold Eff.bind, Eff.ret. rewrite IH.
    destruct (forOf body xs s') as [s1 [bs|e]]; [|done].
    by destruct (forOf body ys s1) as [s2 [cs|e]].
Qed.

(** X14: a batch of [xs ++ ys] does what a batch of [xs] followed by a
    batch of [ys] does: the same records are stored, the reply lists
    the ids of the first batch followed by those of the second, and a
    failure of the first batch leaves [ys] untouched. *)
Theorem sendTransactionBatch_app `{Helpers} (cfg : Config) (now : Z)
    (chain fromAddress : string) (mode : option string)
    (xs ys : list TransactionRequestBody) (st : Store) :
  sendTransactionBatch cfg now chain fromAddress mode (xs ++ ys) st
  = match sendTransactionBatch cfg now chain fromAddress mode xs st with
    | (st1, Ok first) =>
        match sendTransactionBatch cfg now chain fromAddress mode ys st1 with
        | (st2, Ok second) =>
            (st2, Ok (send StatusCodes.OK (reply_body first ++ reply_body second)))
        | (st2, Throw e) => (st2, Throw e)
        end
    | (st1, Throw e) => (st1, Throw e)
    end.
Proof.
  unfold sendTransactionBatch, mbind, M_bind, mret, M_ret, throw.
  destruct (getChainIdFromChain chain) as [chainId|e]; [|done].
  unfold Eff.bind at 1 2 4 5. unfold Eff.ret at 1 2 4. cbn beta iota.
  unfold Eff.bind, Eff.ret.
  rewrite forOf_app.
  destruct (forOf _ xs st) as [st1 [bs|e]]; [|done].
  by destruct (forOf _ ys st1) as [st2 [cs|e]].
Qed.

End BatchCompositionSpec.

(** ** Interleaved reconciliation runs *)
Module IndexerRunsSpec.
Import Indexers IndexerRuns.

Lemma gentle_refl D s : gentle D s s.
Proof. split; eauto. Qed.

Lemma gentle_trans D s1 s2 s3 : gentle D s1 s2 -> gentle D s2 s3 -> gentle D s1 s3.
Proof.
  intros [Ha1 Hk1] [Ha2 Hk2]. split.
  - intros k [Hk|Hk]%Ha2; [by apply Ha1 | by right].
  - intros k HD Hk. by apply Hk2, Hk1.
Qed.

Lemma gentle_start D c s : c ∈ D -> gentle D s (startChainIndexer c s).
Proof.
  intros Hc. split; intros k; rewrite IndexersSpec.dom_start, elem_of_union, elem_of_singleton.
  - intros [->|?]; eauto.
  - eauto.
Qed.

Lemma gentle_remove D c s : c ∉ D -> gentle D s (removeChainIndexer c s).
Proof.
  intros Hc. split; intros k;
    rewrite IndexersSpec.dom_remove, elem_of_difference, elem_of_singleton.
  - intros [? _]. by left.
  - intros HD Hk. split; [done|]. by intros ->.
Qed.

(** What a run has achieved is not undone by the steps of another run. *)
Lemma achieved_stable D pc s s' : gentle D s s' -> achieved D pc s -> achieved D pc s'.
Proof.
  intros [Hadd Hkeep]. destruct pc as [|c todo|todo|]; simpl.
  - done.
  - intros (Hc & Htodo & Hcov). split; [done|]. split; [done|].
    intros x Hx. destruct (Hcov x Hx) as [?|?]; [left; by apply Hkeep | by right].
  - intros [HD Hrest]. split.
    + intros x Hx. by apply Hkeep, HD.
    + intros k [Hk|Hk]%Hadd; [by apply Hrest | by left].
  - intros Hfin k. split.
    + intros [Hk|Hk]%Hadd; [by apply Hfin | done].
    + intros Hk. apply Hkeep; [done | by apply Hfin].
Qed.

Lemma runRemoveLoop_achieves D todo : forall s,
  achieved D (InRemoveLoop todo) s ->
  achieved D (runRemoveLoop D todo s).1 (runRemoveLoop D todo s).2
  /\ gentle D s (runRemoveLoop D todo s).2.
Proof.
  induction todo as [|k rest IH]; intros s [HD Hrest]; simpl.
  - split; [|apply gentle_refl]. intros k. split.
    + intros [?|Hk]%Hrest; [done | by apply elem_of_nil in Hk].
    + apply HD.
  - case_bool_decide as Hdom; case_bool_decide as Hk; simpl.
    + apply IH. split; [done|].
      intros k' Hk'. destruct (Hrest k' Hk') as [?|[->|?]%elem_of_cons]; eauto.
    + split; [|by apply gentle_remove]. split.
      * intros x Hx. rewrite IndexersSpec.dom_remove, elem_of_difference, elem_of_singleton.
        split; [by apply HD | by intros ->].
      * intros k'. rewrite IndexersSpec.dom_remove, elem_of_difference, elem_of_singleton.
        intros [Hk' Hne]. destruct (Hrest k' Hk') as [?|[->|?]%elem_of_cons]; eauto. done.
    + apply IH. split; [done|].
      intros k' Hk'. destruct (Hrest k' Hk') as [?|[->|?]%elem_of_cons]; eauto.
    + apply IH. split; [done|].
      intros k' Hk'. destruct (Hrest k' Hk') as [?|[->|?]%elem_of_cons]; eauto. done.
Qed.

Lemma runAddLoop_achieves D todo : forall s,
  (forall x, x ∈ todo -> x ∈ D) ->
  (forall x, x ∈ D -> x ∈ dom (INDEXER_REGISTRY s) \/ x ∈ todo) ->
  achieved D (runAddLoop D todo s).1 (runAddLoop D todo s).2
  /\ gentle D s (runAddLoop D todo s).2.
Proof.
  induction todo as [|c rest IH]; intros s Htodo Hcov; simpl.
  - apply runRemoveLoop_achieves. split.
    + intros x [?|Hx]%Hcov; [done | by apply elem_of_nil in Hx].
    + intros k Hk. right. by apply IndexersSpec.registryKeys_dom.
  - case_bool_decide as Hdom; simpl.
    + apply IH.
      * intros x Hx. apply Htodo. by right.
      * intros x [?|[->|?]%elem_of_cons]%Hcov; eauto.
    + split; [|apply gentle_refl]. split; [apply Htodo; by left|]. split.
      * intros x Hx. apply Htodo. by right.
      * intros x [?|[->|?]%elem_of_cons]%Hcov; eauto.
Qed.

Lemma resume_achieves D pc s :
  achieved D pc s ->
  achieved D (resume D pc s).1 (resume D pc s).2 /\ gentle D s (resume D pc s).2.
Proof.
  destruct pc as [|c todo|todo|]; simpl.
  - intros _. apply runAddLoop_achieves; eauto.
  - intros (Hc & Htodo & Hcov).
    destruct (runAddLoop_achieves D todo (startChainIndexer c s)) as [Hach Hg].
    + done.
    + intros x Hx. rewrite IndexersSpec.dom_start, elem_of_union, elem_of_singleton.
      destruct (Hcov x Hx) as [?|[->|?]]; eauto.
    + split; [done|]. eapply gentle_trans; [by apply gentle_start | done].
  - apply runRemoveLoop_achieves.
  - intros Hfin. split; [done | apply gentle_refl].
Qed.

Lemma interleave_achieves D schedule : forall pc1 pc2 s,
  achieved D pc1 s -> achieved D pc2 s ->
  let '(pc1', pc2', s') := interleave D schedule pc1 pc2 s in
  achieved D pc1' s' /\ achieved D pc2' s' /\ gentle D s s'.
Proof.
  induction schedule as [|b schedule IH]; intros pc1 pc2 s H1 H2; simpl.
  - split; [done|]. split; [done | apply gentle_refl].
  - destruct b.
    + destruct (resume_achieves D pc1 s H1) as [H1' Hg].
      destruct (resume D pc1 s) as [pc1' s']. simpl in *.
      specialize (IH pc1' pc2 s' H1' (achieved_stable D pc2 s s' Hg H2)).
      destruct (interleave D schedule pc1' pc2 s') as [[pc1'' pc2''] s''].
      destruct IH as (? & ? & ?). split; [done|]. split; [done|].
      by eapply gentle_trans.
    + destruct (resume_achieves D pc2 s H2) as [H2' Hg].
      destruct (resume D pc2 s) as [pc2' s']. simpl in *.
      specialize (IH pc1 pc2' s' (achieved_stable D pc1 s s' Hg H1) H2').
      destruct (interleave D schedule pc1 pc2' s') as [[pc1'' pc2''] s''].
      destruct IH as (? & ? & ?). split; [done|]. split; [done|].
      by eapply gentle_trans.
Qed.

(** X15: two runs for the same desired chain ids, interleaved in any
    way from any state: as soon as one of them has finished, the
    registry has an entry for exactly the desired chain ids. *)
Theorem interleaved_runs_settle_registry (D : list Z) (schedule : list bool)
    (s0 s : State) (pc1 pc2 : Pc) :
  interleave D schedule AtStart AtStart s0 = (pc1, pc2, s) ->
  pc1 = Finished \/ pc2 = Finished ->
  dom (INDEXER_REGISTRY s) = list_to_set D.
Proof.
  intros Hrun Hfin.
  pose proof (interleave_achieves D schedule AtStart AtStart s0 I I) as Hach.
  rewrite Hrun in Hach. destruct Hach as (H1 & H2 & _).
  apply set_eq. intros k. rewrite elem_of_list_to_set.
  destruct Hfin as [->| ->]; [apply H1 | apply H2].
Qed.

(** X16: however two runs for the same desired chain ids interleave,
    no desired chain that had an entry loses it, and no chain outside
    the desired ones gains one. *)
Theorem interleaved_runs_are_gentle (D : list Z) (schedule : list bool) (s0 : State) :
  gentle D s0 (interleave D schedule AtStart AtStart s0).2.
Proof.
  pose proof (interleave_achieves D schedule AtStart AtStart s0 I I) as Hach.
  destruct (interleave D schedule AtStart AtStart s0) as [[pc1 pc2] s].
  by destruct Hach as (_ & _ & ?).
Qed.

End IndexerRunsSpec.

(** ** The further theorems at sample inputs *)
Module MoreWitnesses.
Import Samples MoreSamples.

(** X5 at sample inputs. *)
Lemma cacheKey_injective_witness :
  chain_id (SmartWallet.chain walletCall) = chain_id (SmartWallet.chain walletCallAgain)
  /\ SmartWallet.accountAddress walletCall = SmartWallet.accountAddress walletCallAgain
  /\ SmartWallet.sw_from walletCall = SmartWallet.sw_from walletCallAgain.
Proof.
  apply (SmartWalletCacheSpec.cacheKey_injective walletCall walletCallAgain);
    vm_compute; reflexivity.
Defined.


(** X8 at sample inputs. *)
Lemma queueId_takes_precedence_witness :
  GetLogs.getTransactionLogs (H := logsSdk)
    (GetLogs.mkQuery (GetLogs.chain logsQuery) (GetLogs.q_queueId logsQuery)
       (Some "0xother") (GetLogs.parseLogs logsQuery)) [minedRecord]
  = GetLogs.getTransactionLogs (H := logsSdk) logsQuery [minedRecord].
Proof.
  apply (GetLogsPathsSpec.queueId_takes_precedence (H := logsSdk)
           logsQuery (Some "0xother") [minedRecord]).
  reflexivity.
Defined.

(** X9 at sample inputs. *)
Lemma without_queueId_table_is_ignored_witness :
  (GetLogs.getTransactionLogs (H := logsSdk) hashQuery []).2
  = (GetLogs.getTransactionLogs (H := logsSdk) hashQuery [minedRecord]).2.
Proof.
  apply (GetLogsPathsSpec.without_queueId_table_is_ignored (H := logsSdk)
           hashQuery [] [minedRecord]).
  reflexivity.
Defined.

(** X10 at sample inputs. *)
Lemma failures_are_bad_requests_witness :
  statusCode missingId = StatusCodes.BAD_REQUEST
  /\ code missingId ∈ GetLogsErrors.handlerCodes.
Proof.
  apply (GetLogsPathsSpec.failures_are_bad_requests (H := logsSdk)
           emptyQuery [] 137 polygon missingId);
    [reflexivity | reflexivity | intros a; eexists; reflexivity | reflexivity].
Defined.

(** X11 at sample inputs. *)
Lemma raw_logs_need_no_target_witness :
  (GetLogs.parseLogs rawQuery = Some false ->
     GetLogs.getTransactionLogs (H := logsSdk) rawQuery [minedRecord]
     = ([minedRecord],
        Ok (send StatusCodes.OK
              (GetLogs.serializeLogs (Sdk := logsSdk) (GetLogs.logs receipt)))))
  /\ (default true (GetLogs.parseLogs rawQuery) = true ->
      GetLogs.receipt_to receipt = None ->
      GetLogs.getTransactionLogs (H := logsSdk) rawQuery [minedRecord]
      = ([minedRecord], Throw GetLogsErrors.logsUnavailable)).
Proof.
  apply (GetLogsPathsSpec.raw_logs_need_no_target (H := logsSdk)
           rawQuery [minedRecord] 137 polygon "0xhash" receipt);
    [reflexivity | reflexivity | reflexivity | reflexivity | discriminate | reflexivity].
Defined.

(** X12 at sample inputs. *)
Lemma parsed_logs_when_target_has_events_witness :
  exists signatures,
    GetLogs.getTransactionLogs (H := logsSdk) hashQuery []
    = ([], Ok (send StatusCodes.OK
                 (GetLogs.serializeParsedLogs (Sdk := logsSdk)
                    (GetLogs.parseEventLogs (Sdk := logsSdk)
                       (GetLogs.prepareEvent (Sdk := logsSdk) <$> signatures)
                       (GetLogs.logs receipt)))))
    /\ forall sig, sig ∈ signatures
         <-> exists a abi',
               (a = "0xB"
                \/ exists log, log ∈ GetLogs.logs receipt
                                /\ GetLogs.address log = a /\ a <> "")
               /\ GetLogs.resolveContractAbi (Sdk := logsSdk) polygon a = Ok abi'
               /\ sig ∈ abi' /\ GetLogs.type sig = "event".
Proof.
  apply (GetLogsPathsSpec.parsed_logs_when_target_has_events (H := logsSdk)
           hashQuery [] 137 polygon "0xhash" "0xB" receipt tokenAbi transferEvent);
    [reflexivity | reflexivity | reflexivity | reflexivity | discriminate
    | reflexivity | reflexivity | reflexivity | discriminate
    | intros a; eexists; reflexivity | reflexivity
    | apply list_elem_of_here | reflexivity].
Defined.

(** X15 at sample inputs. *)
Lemma interleaved_runs_settle_registry_witness :
  dom (Indexers.INDEXER_REGISTRY
         (Indexers.interleave [1] turns Indexers.AtStart Indexers.AtStart
            Indexers.empty).2)
  = list_to_set [1].
Proof.
  apply (IndexerRunsSpec.interleaved_runs_settle_registry [1] turns Indexers.empty
           (Indexers.interleave [1] turns Indexers.AtStart Indexers.AtStart
              Indexers.empty).2
           Indexers.Finished Indexers.Finished);
    [reflexivity | left; reflexivity].
Defined.

End MoreWitnesses.
